(** * AFL QEMU-mode shim: coverage logger, fork server and translation relay

    A shallow embedding of [afl-qemu-cpu-inl.h]: the tuple logger
    [afl_maybe_log], the set-up routine [afl_setup], the fork server
    [afl_forkserver] and the two ends of the translation-request channel
    ([afl_request_tsl], [afl_wait_tsl]).

    C integers are mathematical integers ([Z]) with every wrap-around and
    conversion written out.  Calls into the operating system and into QEMU
    are recorded as a trace of events; what the operating system answers is
    an input of the model. *)

From stdpp Require Import base numbers list strings gmap.

Local Open Scope Z_scope.

(** ** Machine integers *)

(** Conversion to [unsigned int] (32 bits). *)
Definition to_uint (x : Z) : Z := x mod 2 ^ 32.

(** Conversion to an unsigned type of [w] bits ([abi_ulong] has
    [TARGET_ABI_BITS] bits). *)
Definition to_unsigned (w x : Z) : Z := x mod 2 ^ w.

(** [p[i]++] on an [unsigned char]: the byte is promoted, incremented and
    truncated back to eight bits. *)
Definition incr_uchar (b : Z) : Z := (b + 1) mod 256.

(** ** Process state *)

(** The globals of the shim.  [afl_area_ptr] is [None] for a null pointer and
    [Some bytes] when it points at the attached shared segment, whose bytes
    are listed from offset 0.  [prev_loc] is [static __thread]: one cell per
    thread, zero until the thread first stores to it. *)
Record afl_state := mk_afl_state {
  afl_area_ptr : option (list Z);
  afl_entry_point : Z;
  afl_start_code : Z;
  afl_end_code : Z;
  afl_fork_child : Z;
  afl_forksrv_pid : Z;
  afl_inst_rms : Z;
  prev_loc : gmap nat Z
}.

Definition set_area (p : option (list Z)) (st : afl_state) : afl_state :=
  mk_afl_state p (afl_entry_point st) (afl_start_code st) (afl_end_code st)
    (afl_fork_child st) (afl_forksrv_pid st) (afl_inst_rms st) (prev_loc st).

Definition set_code_bounds (lo hi : Z) (st : afl_state) : afl_state :=
  mk_afl_state (afl_area_ptr st) (afl_entry_point st) lo hi
    (afl_fork_child st) (afl_forksrv_pid st) (afl_inst_rms st) (prev_loc st).

Definition set_fork_child (v : Z) (st : afl_state) : afl_state :=
  mk_afl_state (afl_area_ptr st) (afl_entry_point st) (afl_start_code st)
    (afl_end_code st) v (afl_forksrv_pid st) (afl_inst_rms st) (prev_loc st).

Definition set_forksrv_pid (v : Z) (st : afl_state) : afl_state :=
  mk_afl_state (afl_area_ptr st) (afl_entry_point st) (afl_start_code st)
    (afl_end_code st) (afl_fork_child st) v (afl_inst_rms st) (prev_loc st).

Definition set_inst_rms (v : Z) (st : afl_state) : afl_state :=
  mk_afl_state (afl_area_ptr st) (afl_entry_point st) (afl_start_code st)
    (afl_end_code st) (afl_fork_child st) (afl_forksrv_pid st) v (prev_loc st).

Definition set_prev_loc (tid : nat) (v : Z) (st : afl_state) : afl_state :=
  mk_afl_state (afl_area_ptr st) (afl_entry_point st) (afl_start_code st)
    (afl_end_code st) (afl_fork_child st) (afl_forksrv_pid st)
    (afl_inst_rms st) (<[tid := v]> (prev_loc st)).

(** The value a thread reads from its [prev_loc]. *)
Definition get_prev_loc (tid : nat) (st : afl_state) : Z :=
  default 0 (prev_loc st !! tid).

(** Byte access through [afl_area_ptr]: an offset outside the segment is an
    invalid access, reported as [None]. *)
Definition load_byte (bm : list Z) (i : Z) : option Z :=
  if decide (0 <= i) then bm !! Z.to_nat i else None.

Definition store_byte (bm : list Z) (i : Z) (v : Z) : option (list Z) :=
  if decide (0 <= i < Z.of_nat (length bm)) then Some (<[Z.to_nat i := v]> bm)
  else None.

(** ** Calls out of the shim *)

(** [struct afl_tsl]. *)
Record afl_tsl := mk_afl_tsl {
  tsl_pc : Z;
  tsl_cs_base : Z;
  tsl_flags : Z
}.

(** What a [write] or a [printf] is handed: the bytes of [tmp], the [int]
    objects [child_pid] and [status], a [struct afl_tsl], or a plain integer
    argument. *)
Inductive buffer :=
  | BufBytes (bytes : list Z)
  | BufChildPid (child_pid : Z)
  | BufStatus (status : Z)
  | BufTsl (t : afl_tsl)
  | BufInt (v : Z).

(** One call into the C library, the operating system or QEMU, with its
    arguments and, where the code looks at it, its result. *)
Inductive event :=
  | EvPrintf (fmt : string) (args : list buffer)
  | EvPuts (s : string)
  | EvShmat (shm_id : Z)
  | EvRcuDisableAtfork
  | EvWrite (fd : Z) (buf : buffer) (count : Z) (ret : Z)
  | EvRead (fd : Z) (count : Z) (ret : Z)
  | EvGetpid (ret : Z)
  | EvFork (ret : Z)
  | EvClose (fd : Z)
  | EvWaitpid (pid : Z) (ret : Z)
  | EvSleep (seconds : Z)
  | EvTbHtableLookup (pc cs_base flags : Z)
  | EvTbGenCode (pc cs_base flags : Z).

(** How a piece of code ends: it falls through with a value, the process
    exits with a code, it stays blocked in a call that is never answered, or
    it touches memory outside the attached segment. *)
Inductive outcome (A : Type) :=
  | Done (a : A)
  | Exited (code : Z)
  | Blocked
  | Fault.
Arguments Done {A} a.
Arguments Exited {A} code.
Arguments Blocked {A}.
Arguments Fault {A}.

(** A computation: the calls it made, in order, and how it ended. *)
Definition io (A : Type) : Type := list event * outcome A.

Definition io_ret {A} (a : A) : io A := ([], Done a).

Definition io_bind {A B} (f : A -> io B) (m : io A) : io B :=
  match m with
  | (t, Done a) => let (t', o) := f a in (t ++ t', o)
  | (t, Exited c) => (t, Exited c)
  | (t, Blocked) => (t, Blocked)
  | (t, Fault) => (t, Fault)
  end.

#[export] Instance io_mret : MRet io := @io_ret.
#[export] Instance io_mbind : MBind io := @io_bind.

Definition call (e : event) : io () := ([e], Done ()).
Definition exit {A} (code : Z) : io A := ([], Exited code).

Definition trace {A} (m : io A) : list event := fst m.
Definition result {A} (m : io A) : outcome A := snd m.

(** The format strings of the three [printf] calls; each ends in a line
    feed. *)
Definition LF : string :=
  String (Ascii.Ascii false true false true false false false false) "".
Definition fmt_write_to_afl : string := "[Qemu] write %x to AFL" +:+ LF.
Definition fmt_forksrv_pid : string := "[+] afl_forksrv_pid: %d" +:+ LF.
Definition fmt_parent_waits : string :=
  "[Qemu] Parent will wait until child exit" +:+ LF.

(** What the operating system answers during one turn of the fork-server
    loop, in the process that is being followed: the results of the [read] of
    the go signal, of [fork], of the [write] of the child's pid, of [waitpid]
    with the status it stores, and of the [write] of that status. *)
Record fork_round := mk_fork_round {
  go_read : Z;
  fork_ret : Z;
  pid_write : Z;
  waitpid_ret : Z;
  waitpid_status : Z;
  status_write : Z
}.

(** The answers to one whole call of [afl_forkserver]: the first [write], 
    [getpid], and the turns of the loop.  When the turns run out the
    controller sends no further go signal. *)
Record os_answers := mk_os_answers {
  handshake_write : Z;
  getpid_ret : Z;
  rounds : list fork_round
}.

(** The initial content of [tmp]: the characters of ["1234"]. *)
Definition tmp : list Z := [49; 50; 51; 52].

(** ** A configuration to run the model on *)

(** The values of AFL's stock [config.h] on a 64-bit target:
    [MAP_SIZE = 1 << 16], [FORKSRV_FD = 198], [SHM_ENV_VAR = "__AFL_SHM_ID"],
    and a 24-byte [struct afl_tsl].  The examples below instantiate the
    configuration with them. *)

(** A decimal reading of strings, standing for [atoi] in the examples: an
    optional minus sign, then digits up to the first other character. *)
Definition digit_value (c : Ascii.ascii) : option Z :=
  let n := Z.of_nat (Ascii.nat_of_ascii c) in
  if decide (48 <= n <= 57) then Some (n - 48) else None.

Fixpoint read_digits (acc : Z) (s : string) : Z :=
  match s with
  | EmptyString => acc
  | String c s' =>
      match digit_value c with
      | Some d => read_digits (10 * acc + d) s'
      | None => acc
      end
  end.

Definition atoi_decimal (s : string) : Z :=
  match s with
  | EmptyString => 0
  | String c s' =>
      if decide (Ascii.nat_of_ascii c = 45%nat) then - read_digits 0 s'
      else read_digits 0 s
  end.

(** A zeroed bitmap of 65536 bytes; a process that has it attached and one
    that has none. *)
Definition bitmap_64k : list Z := replicate (Z.to_nat 65536) 0.

Definition attached_64k : afl_state :=
  mk_afl_state (Some bitmap_64k) 0 0 0 0 0 65536 ∅.

Definition unattached_64k : afl_state :=
  mk_afl_state None 0 0 0 0 0 65536 ∅.

(** A turn of the loop in which every call succeeds, in the parent. *)
Definition one_turn : fork_round := mk_fork_round 4 4321 4 4321 0 4.

Definition tsl_1 : afl_tsl := mk_afl_tsl 4198400 0 0.
Definition tsl_2 : afl_tsl := mk_afl_tsl 4198416 0 1.

(** An environment that holds only [AFL_INST_RATIO]. *)
Definition environ_ratio (r : string) : gmap string string :=
  {[ "AFL_INST_RATIO"%string := r ]}.

(** A small configuration: a bitmap of 16 bytes, a turn of the loop seen
    from the child, and an environment that holds only the shared-memory
    identifier. *)
Definition attached_16 : afl_state :=
  mk_afl_state (Some (replicate 16 0)) 0 0 0 0 0 16 ∅.

Definition child_turn : fork_round := mk_fork_round 4 0 0 0 0 0.

Definition environ_shm : gmap string string :=
  {[ "__AFL_SHM_ID"%string := "7"%string ]}.

Section Afl.

(** Constants of AFL's [config.h] and of the QEMU target, which the shim
    includes but does not define. *)
Variable MAP_SIZE : Z.
Variable FORKSRV_FD : Z.
Variable SHM_ENV_VAR : string.
Variable TARGET_ABI_BITS : Z.

(** [sizeof(struct afl_tsl)]. *)
Variable sizeof_afl_tsl : Z.

(** The C library's [atoi]. *)
Variable atoi : string -> Z.

Definition TSL_FD : Z := FORKSRV_FD - 1.

Definition to_abi_ulong (x : Z) : Z := to_unsigned TARGET_ABI_BITS x.

(** The globals as the loader leaves them: zero-initialised statics, and
    [afl_inst_rms = MAP_SIZE]. *)
Definition initial_state : afl_state :=
  mk_afl_state None 0 0 0 0 0 (to_uint MAP_SIZE) ∅.

(** ** The tuple logger *)

(** Lines 282-283: the block address is mangled in [abi_ulong] arithmetic and
    masked with [MAP_SIZE - 1]. *)
Definition scramble (cur_loc : Z) : Z :=
  let cur_loc :=
    Z.lxor (Z.shiftr cur_loc 4) (to_abi_ulong (Z.shiftl cur_loc 8)) in
  Z.land cur_loc (to_abi_ulong (MAP_SIZE - 1)).

(** [afl_maybe_log], called by thread [tid].  [None] is an access outside the
    attached segment. *)
Definition afl_maybe_log (tid : nat) (cur_loc : Z) (st : afl_state)
  : option afl_state :=
  match afl_area_ptr st with
  | None => Some st
  | Some bm =>
      let cur_loc := scramble cur_loc in
      if decide (afl_inst_rms st <= cur_loc) then Some st
      else
        let idx := Z.lxor cur_loc (get_prev_loc tid st) in
        b ← load_byte bm idx;
        bm' ← store_byte bm idx (incr_uchar b);
        Some (set_prev_loc tid (Z.shiftr cur_loc 1) (set_area (Some bm') st))
  end.

(** A sequence of logger calls, each made by some thread. *)
Fixpoint afl_maybe_log_all (calls : list (nat * Z)) (st : afl_state)
  : option afl_state :=
  match calls with
  | [] => Some st
  | (tid, cur_loc) :: calls =>
      st' ← afl_maybe_log tid cur_loc st;
      afl_maybe_log_all calls st'
  end.

(** ** Set-up *)

(** [afl_setup].  [environ] is the process environment read by [getenv];
    [shmat_ret] is what [shmat] answers: [None] for [(void * )-1], else the
    attached segment. *)
Definition afl_setup (environ : gmap string string)
    (shmat_ret : option (list Z)) (st : afl_state) : io afl_state :=
  let id_str := environ !! SHM_ENV_VAR in
  let inst_r := environ !! "AFL_INST_RATIO"%string in
  let st :=
    match inst_r with
    | Some inst_r =>
        let r := to_uint (atoi inst_r) in
        let r := if decide (100 < r) then 100 else r in
        let r := if decide (r = 0) then 1 else r in
        set_inst_rms (to_uint (to_uint MAP_SIZE * r) / 100) st
    | None => st
    end in
  st ← match id_str with
       | Some id_str =>
           let shm_id := atoi id_str in
           call (EvShmat shm_id);;
           match shmat_ret with
           | None => exit 1
           | Some bm =>
               if inst_r is Some _ then
                 match store_byte bm 0 1 with
                 | Some bm' => mret (set_area (Some bm') st)
                 | None => ([], Fault)
                 end
               else mret (set_area (Some bm) st)
           end
       | None => mret st
       end;
  let st :=
    if environ !! "AFL_INST_LIBS"%string is Some _
    then set_code_bounds 0 (to_abi_ulong (-1)) st
    else st in
  call EvRcuDisableAtfork;;
  mret st.

(** ** The fork server *)

(** One turn of the [while (1)] loop of [afl_forkserver].  [Some st] is the
    [return] taken in the child; [None] is the end of the loop body.  The
    bytes that [read] stores into [tmp] are never looked at and are not
    modelled. *)
Definition forkserver_round (r : fork_round) (st : afl_state)
  : io (option afl_state) :=
  let failed_len := go_read r in
  call (EvRead FORKSRV_FD 4 failed_len);;
  if decide (failed_len ≠ 4) then
    call (EvPuts "[!] Parent dead!");;
    exit 2
  else
    let child_pid := fork_ret r in
    call (EvFork child_pid);;
    if decide (child_pid < 0) then exit 4
    else if decide (child_pid = 0) then
      let st := set_fork_child 1 st in
      call (EvClose FORKSRV_FD);;
      call (EvClose (FORKSRV_FD + 1));;
      mret (Some st)
    else
      call (EvPrintf fmt_parent_waits []);;
      call (EvWrite (FORKSRV_FD + 1) (BufChildPid child_pid) 4 (pid_write r));;
      if decide (pid_write r ≠ 4) then exit 5
      else
        call (EvWaitpid child_pid (waitpid_ret r));;
        if decide (waitpid_ret r < 0) then exit 6
        else
          let status := waitpid_status r in
          call (EvWrite (FORKSRV_FD + 1) (BufStatus status) 4 (status_write r));;
          if decide (status_write r ≠ 4) then exit 7
          else
            call (EvSleep 5);;
            mret None.

(** The [while (1)] loop, one turn per answered go signal. *)
Fixpoint forkserver_loop (rs : list fork_round) (st : afl_state)
  : io afl_state :=
  match rs with
  | [] => ([], Blocked)
  | r :: rs =>
      x ← forkserver_round r st;
      match x with
      | Some st' => mret st'
      | None => forkserver_loop rs st
      end
  end.

(** [afl_forkserver]. *)
Definition afl_forkserver (os : os_answers) (st : afl_state) : io afl_state :=
  if afl_area_ptr st is Some _ then
    call (EvPrintf fmt_write_to_afl [BufBytes tmp]);;
    call (EvWrite (FORKSRV_FD + 1) (BufBytes tmp) 4 (handshake_write os));;
    if decide (handshake_write os ≠ 4) then mret st
    else
      call (EvGetpid (getpid_ret os));;
      let st := set_forksrv_pid (to_uint (getpid_ret os)) st in
      call (EvPrintf fmt_forksrv_pid [BufInt (afl_forksrv_pid st)]);;
      forkserver_loop (rounds os) st
  else mret st.

(** ** The translation-request channel *)

(** [afl_request_tsl]; [write_ret] is what the [write] answers. *)
Definition afl_request_tsl (pc cb flags : Z) (write_ret : Z) (st : afl_state)
  : io () :=
  if decide (afl_fork_child st = 0) then mret ()
  else
    let t := mk_afl_tsl pc cb flags in
    call (EvWrite TSL_FD (BufTsl t) sizeof_afl_tsl write_ret);;
    if decide (write_ret ≠ sizeof_afl_tsl) then mret () else mret ().

(** [afl_wait_tsl]; [reads] lists what each [read] answers: the count it
    returns and the record it stores into [t].  When the answers run out the
    next [read] never returns. *)
Fixpoint afl_wait_tsl (fd : Z) (reads : list (Z * afl_tsl)) : io () :=
  match reads with
  | [] => ([], Blocked)
  | (n, t) :: reads =>
      call (EvRead fd sizeof_afl_tsl n);;
      if decide (n ≠ sizeof_afl_tsl) then call (EvClose fd)
      else afl_wait_tsl fd reads
  end.

(** ** The snippets patched into the translation loop *)

(** [AFL_QEMU_CPU_SNIPPET1]: the request for the block that is about to be
    translated. *)
Definition AFL_QEMU_CPU_SNIPPET1 (pc cs_base flags : Z) (write_ret : Z)
    (st : afl_state) : io () :=
  afl_request_tsl pc cs_base flags write_ret st.

(** The end of the logger as seen by its caller: an access outside the
    segment ends the computation. *)
Definition logged (o : option afl_state) : io afl_state :=
  match o with
  | Some st => mret st
  | None => ([], Fault)
  end.

(** [AFL_QEMU_CPU_SNIPPET2], run by thread [tid] on the block at [pc]
    ([itb->pc], converted to [abi_ulong] when it is handed to the logger):
    set-up and the fork server at the entry point, then the logger. *)
Definition AFL_QEMU_CPU_SNIPPET2 (tid : nat) (pc : Z)
    (environ : gmap string string) (shmat_ret : option (list Z))
    (os : os_answers) (st : afl_state) : io afl_state :=
  st ← (if decide (pc = afl_entry_point st) then
          st ← afl_setup environ shmat_ret st;
          afl_forkserver os st
        else mret st);
  logged (afl_maybe_log tid (to_abi_ulong pc) st).

(** ** Well-formed states and observations *)

(** The attached segment has [MAP_SIZE] bytes, as the controller creates it,
    and every thread's [prev_loc] is a bitmap offset. *)
Definition wf_state (st : afl_state) : Prop :=
  (∀ bm, afl_area_ptr st = Some bm → Z.of_nat (length bm) = MAP_SIZE) ∧
  map_Forall (λ _ v, 0 <= v < MAP_SIZE) (prev_loc st).

(** Every thread's [prev_loc] is still zero or is a scrambled address
    shifted right by one. *)
Definition prev_loc_shifted (st : afl_state) : Prop :=
  ∀ tid, get_prev_loc tid st = 0 ∨
         ∃ a, get_prev_loc tid st = Z.shiftr (scramble a) 1.

(** The scrambling as the specification words it, on unbounded integers:
    [(addr >> 4) XOR (addr << 8)], masked to [MAP_SIZE - 1]. *)
Definition spec_scramble (addr : Z) : Z :=
  Z.land (Z.lxor (Z.shiftr addr 4) (Z.shiftl addr 8)) (MAP_SIZE - 1).

(** The sampling rate as the specification words it: [MAP_SIZE * ratio / 100],
    a ratio of 0 taken as 1 and a ratio above 100 as 100. *)
Definition spec_rate (ratio : Z) : Z :=
  MAP_SIZE * (if decide (100 < ratio) then 100
              else if decide (ratio = 0) then 1 else ratio) / 100.

(** A call that took [st] to [st'] recorded something: the bitmap differs. *)
Definition recorded (st st' : afl_state) : Prop :=
  afl_area_ptr st' ≠ afl_area_ptr st.

(** The counter at offset [i] of the bitmap. *)
Definition counter (i : Z) (st : afl_state) : option Z :=
  bm ← afl_area_ptr st; load_byte bm i.

(** How many calls of a sequence changed the counter at offset [i]. *)
Fixpoint recordings (i : Z) (calls : list (nat * Z)) (st : afl_state) : nat :=
  match calls with
  | [] => 0
  | (tid, cur_loc) :: calls =>
      match afl_maybe_log tid cur_loc st with
      | Some st' =>
          ((if decide (counter i st' = counter i st) then 0 else 1)
           + recordings i calls st')%nat
      | None => 0%nat
      end
  end.

(** ** Observations on fork-server and relay traces *)

(** The ordering the specification words for the parent, as a check of a
    trace: every [waitpid] comes after a read on the relay channel (a
    descriptor other than [FORKSRV_FD]) made since the last write of a child
    pid.  [drained] tells whether such a read has been seen. *)
Fixpoint relay_drained_before_wait (drained : bool) (t : list event) : bool :=
  match t with
  | [] => true
  | EvWrite _ (BufChildPid _) _ _ :: t => relay_drained_before_wait false t
  | EvRead fd _ _ :: t =>
      relay_drained_before_wait (drained || bool_decide (fd ≠ FORKSRV_FD)) t
  | EvWaitpid _ _ :: t => drained && relay_drained_before_wait drained t
  | _ :: t => relay_drained_before_wait drained t
  end.

(** The ordering the code has, as a check of a trace: a write of a child pid
    is the last call made when it is short, and is otherwise followed at once
    by the [waitpid] for that pid; no [waitpid] stands elsewhere; every read
    is on [FORKSRV_FD]; the translation engine is never called. *)
Fixpoint waits_right_after_pid_write (t : list event) : bool :=
  match t with
  | [] => true
  | EvWrite _ (BufChildPid v) _ n :: t' =>
      match t' with
      | [] => bool_decide (n ≠ 4)
      | EvWaitpid p _ :: t'' =>
          bool_decide (n = 4 ∧ p = v) && waits_right_after_pid_write t''
      | _ => false
      end
  | EvWaitpid _ _ :: _ => false
  | EvRead fd _ _ :: t' =>
      bool_decide (fd = FORKSRV_FD) && waits_right_after_pid_write t'
  | EvTbHtableLookup _ _ _ :: _ => false
  | EvTbGenCode _ _ _ :: _ => false
  | _ :: t' => waits_right_after_pid_write t'
  end.

(** The framing failures of the fork-server loop and their exit codes. *)
Inductive fatal :=
  | GoReadShort
  | ForkFailed
  | PidWriteShort
  | WaitpidFailed
  | StatusWriteShort.

Definition exit_code (k : fatal) : Z :=
  match k with
  | GoReadShort => 2
  | ForkFailed => 4
  | PidWriteShort => 5
  | WaitpidFailed => 6
  | StatusWriteShort => 7
  end.

(** The parent gets through a whole turn of the loop. *)
Definition completes (r : fork_round) : Prop :=
  go_read r = 4 ∧ 0 < fork_ret r ∧ pid_write r = 4 ∧ 0 <= waitpid_ret r ∧
  status_write r = 4.

(** The calls of a turn the parent gets through. *)
Definition complete_round_trace (r : fork_round) : list event :=
  [EvRead FORKSRV_FD 4 4; EvFork (fork_ret r);
   EvPrintf fmt_parent_waits [];
   EvWrite (FORKSRV_FD + 1) (BufChildPid (fork_ret r)) 4 4;
   EvWaitpid (fork_ret r) (waitpid_ret r);
   EvWrite (FORKSRV_FD + 1) (BufStatus (waitpid_status r)) 4 4;
   EvSleep 5].

(** The calls [afl_forkserver] makes before it enters the loop. *)
Definition handshake_trace (os : os_answers) : list event :=
  [EvPrintf fmt_write_to_afl [BufBytes tmp];
   EvWrite (FORKSRV_FD + 1) (BufBytes tmp) 4 (handshake_write os);
   EvGetpid (getpid_ret os);
   EvPrintf fmt_forksrv_pid [BufInt (to_uint (getpid_ret os))]].

(** The records the receiver is handed before the first short read. *)
Fixpoint received (reads : list (Z * afl_tsl)) : list afl_tsl :=
  match reads with
  | [] => []
  | (n, t) :: reads =>
      if decide (n ≠ sizeof_afl_tsl) then [] else t :: received reads
  end.

(** The trace holds a request to compile the block that [t] names. *)
Definition compile_requested (t : afl_tsl) (tr : list event) : bool :=
  existsb (λ e, match e with
                | EvTbGenCode pc cb fl =>
                    bool_decide (pc = tsl_pc t ∧ cb = tsl_cs_base t ∧
                                 fl = tsl_flags t)
                | _ => false
                end) tr.

(** The receiver as the specification words it: a compile request for each
    record received. *)
Definition compiles_every_message (fd : Z) (reads : list (Z * afl_tsl))
  : bool :=
  forallb (λ t, compile_requested t (trace (afl_wait_tsl fd reads)))
    (received reads).

(** ** Further observations *)

(** Every byte of the attached segment is a value of [unsigned char]. *)
Definition bytes_in_range (st : afl_state) : Prop :=
  ∀ bm, afl_area_ptr st = Some bm → Forall (λ b, 0 <= b < 256) bm.

(** A call of the fork server keeps to the framing of its protocol: reads of
    four bytes from [FORKSRV_FD], writes of four bytes to [FORKSRV_FD + 1],
    closes of these two descriptors only, and no call of set-up or of the
    translation engine. *)
Definition framed (e : event) : bool :=
  match e with
  | EvWrite fd _ count _ => bool_decide (fd = FORKSRV_FD + 1 ∧ count = 4)
  | EvRead fd count _ => bool_decide (fd = FORKSRV_FD ∧ count = 4)
  | EvClose fd => bool_decide (fd = FORKSRV_FD ∨ fd = FORKSRV_FD + 1)
  | EvShmat _ | EvRcuDisableAtfork => false
  | EvTbHtableLookup _ _ _ | EvTbGenCode _ _ _ => false
  | _ => true
  end.

(** The reads the receiver makes: one per answer, up to and including the
    first short one. *)
Definition reads_made (fd : Z) (reads : list (Z * afl_tsl)) : list event :=
  (λ p, EvRead fd sizeof_afl_tsl p.1)
    <$> take (S (length (received reads))) reads.

(** Some [read] of the list is short. *)
Definition channel_breaks (reads : list (Z * afl_tsl)) : Prop :=
  (length (received reads) < length reads)%nat.

(** ** Arithmetic of the logger *)

Lemma land_lxor_wrap (x y m w : Z) :
  0 <= m < 2 ^ w →
  Z.land (Z.lxor x (y mod 2 ^ w)) m = Z.land (Z.lxor x y) m.
Proof.
  intros Hm.
  assert (0 <= w) as Hw.
  { destruct (decide (0 <= w)); [done|].
    rewrite Z.pow_neg_r in Hm by lia. lia. }
  apply Z.bits_inj'. intros n Hn.
  rewrite !Z.land_spec, !Z.lxor_spec.
  destruct (decide (n < w)) as [Hlt|Hge].
  - by rewrite Z.mod_pow2_bits_low by lia.
  - assert (Z.testbit m n = false) as ->; [|by rewrite !andb_false_r].
    rewrite <- (Z.mod_small m (2 ^ w)) by done.
    apply Z.mod_pow2_bits_high. lia.
Qed.

Lemma lxor_range (x y k : Z) :
  0 <= k → 0 <= x < 2 ^ k → 0 <= y < 2 ^ k → 0 <= Z.lxor x y < 2 ^ k.
Proof.
  intros Hk Hx Hy.
  assert (Z.lxor x y = Z.land (Z.lxor x y) (Z.ones k)) as ->.
  { rewrite <- (Z.mod_small x (2 ^ k)) at 1 by done.
    rewrite <- (Z.mod_small y (2 ^ k)) at 1 by done.
    rewrite <- !Z.land_ones by done.
    apply Z.bits_inj'. intros n Hn.
    rewrite !Z.lxor_spec, !Z.land_spec, !Z.lxor_spec.
    destruct (Z.testbit (Z.ones k) n); by rewrite ?andb_true_r, ?andb_false_r. }
  rewrite Z.land_ones by done. apply Z.mod_pos_bound. lia.
Qed.

Lemma shiftr_1_range (v m : Z) : 0 <= v < m → 0 <= Z.shiftr v 1 < m.
Proof.
  intros Hv. rewrite Z.shiftr_div_pow2 by lia. change (2 ^ 1) with 2.
  split; [apply Z.div_pos; lia|].
  apply Z.le_lt_trans with v; [|lia]. apply Z.div_le_upper_bound; lia.
Qed.

Lemma incr_uchar_neq (b : Z) : incr_uchar b ≠ b.
Proof.
  unfold incr_uchar. intros H.
  pose proof (Z.mod_pos_bound (b + 1) 256 ltac:(lia)) as Hb.
  rewrite H in Hb.
  destruct (decide (b = 255)) as [->|Hne]; [done|].
  rewrite Z.mod_small in H; lia.
Qed.

(** ** Facts that hold for every configuration *)

Lemma get_prev_loc_set (tid tid' : nat) (v : Z) (st : afl_state) :
  get_prev_loc tid' (set_prev_loc tid v st) =
  if decide (tid = tid') then v else get_prev_loc tid' st.
Proof.
  unfold get_prev_loc, set_prev_loc. simpl.
  rewrite lookup_insert. by destruct (decide (tid = tid')).
Qed.

Lemma get_prev_loc_set_area (tid : nat) p (st : afl_state) :
  get_prev_loc tid (set_area p st) = get_prev_loc tid st.
Proof. done. Qed.

(** What a call that takes the sampling return does. *)
Lemma afl_maybe_log_skips (tid : nat) (addr : Z) (st : afl_state) bm :
  afl_area_ptr st = Some bm →
  afl_inst_rms st <= scramble addr →
  afl_maybe_log tid addr st = Some st.
Proof.
  intros Hbm Hge. unfold afl_maybe_log. rewrite Hbm. simpl.
  by rewrite decide_True by done.
Qed.

Lemma afl_maybe_log_prev_loc_shifted (tid : nat) (addr : Z) (st st' : afl_state) :
  prev_loc_shifted st → afl_maybe_log tid addr st = Some st' →
  prev_loc_shifted st'.
Proof.
  intros Hinv Hlog. unfold afl_maybe_log in Hlog.
  destruct (afl_area_ptr st) as [bm|]; [|by simplify_eq].
  simpl in Hlog. destruct (decide _); [by simplify_eq|].
  destruct (load_byte _ _); [|done]. simpl in Hlog.
  destruct (store_byte _ _ _); [|done]. simpl in Hlog. simplify_eq.
  intros tid'. rewrite get_prev_loc_set, get_prev_loc_set_area.
  destruct (decide (tid = tid')); [right; eauto | apply Hinv].
Qed.

Lemma counter_insert_ne (i : Z) (j : nat) (v : Z) (bm : list Z) :
  i ≠ Z.of_nat j → load_byte (<[j := v]> bm) i = load_byte bm i.
Proof.
  intros Hne. unfold load_byte. destruct (decide (0 <= i)); [|done].
  apply list_lookup_insert_ne. lia.
Qed.

Lemma afl_maybe_log_all_prev_loc_shifted (calls : list (nat * Z))
    (st st' : afl_state) :
  prev_loc_shifted st → afl_maybe_log_all calls st = Some st' →
  prev_loc_shifted st'.
Proof.
  revert st. induction calls as [|[tid addr] calls IH]; intros st Hinv Hrun.
  - simpl in Hrun. by simplify_eq.
  - simpl in Hrun. destruct (afl_maybe_log tid addr st) as [st1|] eqn:H1; [|done].
    simpl in Hrun. eauto using afl_maybe_log_prev_loc_shifted.
Qed.

Lemma afl_maybe_log_one_byte (tid : nat) (addr : Z) (st st' : afl_state) (j : Z) :
  afl_maybe_log tid addr st = Some st' →
  j ≠ Z.lxor (scramble addr) (get_prev_loc tid st) →
  counter j st' = counter j st.
Proof.
  intros Hlog Hj. unfold afl_maybe_log in Hlog.
  destruct (afl_area_ptr st) as [bm|] eqn:Hbm; [|by simplify_eq].
  simpl in Hlog. destruct (decide _); [by simplify_eq|].
  destruct (load_byte _ _); [|done]. simpl in Hlog.
  unfold store_byte in Hlog. destruct (decide _) as [Hr|]; [|done].
  simpl in Hlog. simplify_eq. unfold counter. simpl. rewrite Hbm. simpl.
  apply counter_insert_ne. lia.
Qed.

Lemma afl_maybe_log_counter (tid : nat) (addr : Z) (st st' : afl_state)
    (i b : Z) :
  afl_maybe_log tid addr st = Some st' → counter i st = Some b →
  counter i st' = Some b ∨ counter i st' = Some (incr_uchar b).
Proof.
  intros Hlog Hb.
  destruct (decide (i = Z.lxor (scramble addr) (get_prev_loc tid st)))
    as [->|Hne]; [|left; rewrite <- Hb; by eapply afl_maybe_log_one_byte].
  unfold afl_maybe_log in Hlog. unfold counter in Hb.
  destruct (afl_area_ptr st) as [bm|] eqn:Hbm; [|done].
  simpl in Hlog, Hb. destruct (decide _); [left; simplify_eq|].
  { unfold counter. by rewrite Hbm. }
  rewrite Hb in Hlog. simpl in Hlog.
  unfold store_byte in Hlog. destruct (decide _) as [Hr|]; [|done].
  simpl in Hlog. simplify_eq. right. unfold counter, load_byte. simpl.
  rewrite decide_True by lia. apply list_lookup_insert_eq. lia.
Qed.

(** The counter at [i] after a run is its value before plus the number of
    recordings that hit it, modulo 256. *)
Lemma recordings_counter (i b : Z) (calls : list (nat * Z))
    (st st' : afl_state) :
  0 <= b < 256 → counter i st = Some b →
  afl_maybe_log_all calls st = Some st' →
  counter i st' = Some ((b + Z.of_nat (recordings i calls st)) mod 256).
Proof.
  revert b st. induction calls as [|[tid addr] calls IH]; intros b st Hb Hc Hrun.
  - simpl in *. simplify_eq. rewrite Hc. f_equal.
    rewrite Z.add_0_r. by rewrite Z.mod_small.
  - simpl in Hrun. simpl.
    destruct (afl_maybe_log tid addr st) as [st1|] eqn:H1; [|done].
    simpl in Hrun.
    destruct (afl_maybe_log_counter tid addr st st1 i b H1 Hc) as [Hsame|Hinc].
    + rewrite decide_True by congruence.
      by rewrite (IH b st1 Hb Hsame Hrun).
    + rewrite decide_False
        by (rewrite Hinc, Hc; intros [= ?]; by eapply incr_uchar_neq).
      assert (0 <= incr_uchar b < 256) as Hb'
        by (apply Z.mod_pos_bound; lia).
      rewrite (IH (incr_uchar b) st1 Hb' Hinc Hrun). f_equal.
      unfold incr_uchar. rewrite Z.add_mod_idemp_l by done. f_equal. lia.
Qed.

(** ** More on the logger, for every configuration *)

(** What a call leaves alone: everything but the bitmap and the caller's
    [prev_loc]. *)
Lemma afl_maybe_log_frame (tid : nat) (addr : Z) (st st' : afl_state) :
  afl_maybe_log tid addr st = Some st' →
  afl_inst_rms st' = afl_inst_rms st ∧
  afl_fork_child st' = afl_fork_child st ∧
  afl_forksrv_pid st' = afl_forksrv_pid st ∧
  afl_entry_point st' = afl_entry_point st ∧
  afl_start_code st' = afl_start_code st ∧
  afl_end_code st' = afl_end_code st ∧
  (∀ tid', tid ≠ tid' → get_prev_loc tid' st' = get_prev_loc tid' st) ∧
  (afl_area_ptr st = None → afl_area_ptr st' = None) ∧
  (∀ bm, afl_area_ptr st = Some bm →
     ∃ bm', afl_area_ptr st' = Some bm' ∧ length bm' = length bm ∧
            (Forall (λ b, 0 <= b < 256) bm → Forall (λ b, 0 <= b < 256) bm')).
Proof.
  intros Hlog. unfold afl_maybe_log in Hlog.
  destruct (afl_area_ptr st) as [bm|] eqn:Hbm.
  - simpl in Hlog. destruct (decide _).
    { simplify_eq. rewrite Hbm. repeat split; try done.
      intros bm' [= <-]. by exists bm. }
    destruct (load_byte _ _) as [b|]; [|done]. simpl in Hlog.
    unfold store_byte in Hlog. destruct (decide _); [|done].
    simpl in Hlog. simplify_eq. repeat split; try done.
    + intros tid' Hne. rewrite get_prev_loc_set, get_prev_loc_set_area.
      by rewrite decide_False.
    + intros bm' [= <-]. eexists. split; [done|].
      split; [by rewrite length_insert|].
      intros Hall. apply Forall_insert; [done|].
      unfold incr_uchar. apply Z.mod_pos_bound. lia.
  - simplify_eq. rewrite Hbm. repeat split; done.
Qed.

(** X1: [prev_loc] is thread-local: a run of calls made by other threads leaves
    the [prev_loc] of thread [tid'] as it was. *)
Theorem prev_loc_is_thread_local (tid' : nat) (calls : list (nat * Z))
    (st st' : afl_state) :
  Forall (λ c, c.1 ≠ tid') calls →
  afl_maybe_log_all calls st = Some st' →
  get_prev_loc tid' st' = get_prev_loc tid' st.
Proof.
  intros Hcalls. revert st.
  induction Hcalls as [|[tid addr] calls Hne _ IH]; intros st Hrun.
  - simpl in Hrun. by simplify_eq.
  - simpl in Hrun.
    destruct (afl_maybe_log tid addr st) as [st1|] eqn:H1; [|done].
    simpl in Hrun. rewrite (IH st1 Hrun).
    by apply (afl_maybe_log_frame tid addr st st1 H1).
Qed.

(** X2: a run of the logger keeps the bitmap a sequence of as many bytes, each
    still a value of [unsigned char], and leaves the sampling rate, the code
    bounds and the fork-server variables alone. *)
Theorem logger_keeps_bytes (calls : list (nat * Z)) (st st' : afl_state) :
  bytes_in_range st →
  afl_maybe_log_all calls st = Some st' →
  bytes_in_range st' ∧
  (length <$> afl_area_ptr st') = (length <$> afl_area_ptr st) ∧
  afl_inst_rms st' = afl_inst_rms st ∧
  afl_start_code st' = afl_start_code st ∧
  afl_end_code st' = afl_end_code st ∧
  afl_fork_child st' = afl_fork_child st ∧
  afl_forksrv_pid st' = afl_forksrv_pid st.
Proof.
  revert st. induction calls as [|[tid addr] calls IH]; intros st Hb Hrun.
  - simpl in Hrun. by simplify_eq.
  - simpl in Hrun.
    destruct (afl_maybe_log tid addr st) as [st1|] eqn:H1; [|done].
    simpl in Hrun.
    destruct (afl_maybe_log_frame tid addr st st1 H1)
      as (E1 & E2 & E3 & _ & E5 & E6 & _ & Hnone & Hsome).
    assert (bytes_in_range st1 ∧
            (length <$> afl_area_ptr st1) = (length <$> afl_area_ptr st))
      as [Hb1 Hlen1].
    { destruct (afl_area_ptr st) as [bm|] eqn:Hbm.
      - destruct (Hsome bm eq_refl) as (bm' & Hbm' & Hlen & Hall).
        split; [|rewrite Hbm'; simpl; by rewrite Hlen].
        intros bm1. rewrite Hbm'. intros [= <-]. apply Hall, (Hb bm), Hbm.
      - rewrite (Hnone eq_refl). split; [|done].
        intros bm1 Hbm1. by rewrite (Hnone eq_refl) in Hbm1. }
    destruct (IH st1 Hb1 Hrun) as (? & ? & ? & ? & ? & ? & ?).
    split; [done|]. repeat split; congruence.
Qed.

(** X3: the code bounds are inert: the logger does the same whatever
    [afl_start_code] and [afl_end_code] hold, and hands them back. *)
Theorem logger_ignores_code_bounds (tid : nat) (addr lo hi : Z)
    (st : afl_state) :
  afl_maybe_log tid addr (set_code_bounds lo hi st) =
  set_code_bounds lo hi <$> afl_maybe_log tid addr st.
Proof.
  unfold afl_maybe_log. simpl.
  destruct (afl_area_ptr st) as [bm|]; [|done]. simpl.
  destruct (decide _); [done|].
  change (get_prev_loc tid (set_code_bounds lo hi st))
    with (get_prev_loc tid st).
  destruct (load_byte _ _) as [b|]; [|done]. simpl.
  by destruct (store_byte _ _ _).
Qed.

Lemma afl_maybe_log_sampled_out (tid : nat) (addr : Z) (st : afl_state) :
  ¬ scramble addr < afl_inst_rms st → afl_maybe_log tid addr st = Some st.
Proof.
  intros Hge. unfold afl_maybe_log.
  destruct (afl_area_ptr st); [|done]. simpl.
  by rewrite decide_True by lia.
Qed.

(** X4: blocks that the sampling drops leave no mark at all, not even on
    [prev_loc]: a run gives the same state as the run of the calls whose
    scrambled address is below the sampling rate. *)
Theorem sampled_out_calls_are_invisible (calls : list (nat * Z))
    (st : afl_state) :
  afl_maybe_log_all calls st =
  afl_maybe_log_all
    (filter (λ c, scramble c.2 < afl_inst_rms st) calls) st.
Proof.
  revert st. induction calls as [|[tid addr] calls IH]; intros st; [done|].
  rewrite filter_cons. simpl.
  destruct (decide (scramble addr < afl_inst_rms st)) as [Hlt|Hge].
  - simpl. destruct (afl_maybe_log tid addr st) as [st1|] eqn:H1; [|done].
    simpl. rewrite IH.
    by destruct (afl_maybe_log_frame tid addr st st1 H1) as [-> _].
  - rewrite (afl_maybe_log_sampled_out tid addr st Hge). simpl. apply IH.
Qed.


(** [x XOR (x >> 1)] determines [x], for [x] below a power of two. *)
Lemma lxor_shiftr_1_inj (x y k : Z) :
  0 <= k → 0 <= x < 2 ^ k → 0 <= y < 2 ^ k →
  Z.lxor x (Z.shiftr x 1) = Z.lxor y (Z.shiftr y 1) → x = y.
Proof.
  intros Hk Hx Hy Heq.
  assert (∀ z n, 0 <= z < 2 ^ k → k <= n → Z.testbit z n = false) as Hhigh.
  { intros z n Hz Hn. rewrite <- (Z.mod_small z (2 ^ k)) by done.
    apply Z.mod_pow2_bits_high. lia. }
  assert (∀ (j : nat) n, 0 <= n → k <= n + Z.of_nat j →
            Z.testbit x n = Z.testbit y n) as Hbits.
  { induction j as [|j IH]; intros n Hn Hkn.
    - rewrite !Hhigh by (done || lia). done.
    - assert (Z.testbit x (n + 1) = Z.testbit y (n + 1)) as Hnext
        by (apply IH; lia).
      assert (Z.testbit (Z.lxor x (Z.shiftr x 1)) n =
              Z.testbit (Z.lxor y (Z.shiftr y 1)) n) as Hn' by (by rewrite Heq).
      rewrite !Z.lxor_spec, !Z.shiftr_spec in Hn' by lia.
      rewrite Hnext in Hn'.
      destruct (Z.testbit x n), (Z.testbit y n), (Z.testbit y (n + 1));
        done. }
  apply Z.bits_inj'. intros n Hn.
  apply (Hbits (Z.to_nat k) n Hn). lia.
Qed.

(** ** The fork server *)

Lemma forkserver_round_completes (r : fork_round) (st : afl_state) :
  completes r →
  forkserver_round r st = (complete_round_trace r, Done None).
Proof.
  intros (Hgo & Hfork & Hpid & Hwait & Hst). unfold forkserver_round.
  rewrite Hgo, Hpid, Hst.
  repeat (case_decide; try lia). done.
Qed.

Lemma forkserver_loop_completes (before rs : list fork_round) (st : afl_state) :
  Forall completes before →
  forkserver_loop (before ++ rs) st =
  (concat (complete_round_trace <$> before) ++ trace (forkserver_loop rs st),
   result (forkserver_loop rs st)).
Proof.
  induction 1 as [|r before Hr _ IH]; simpl.
  - by destruct (forkserver_loop rs st).
  - rewrite (forkserver_round_completes r st Hr). simpl.
    by rewrite IH.
Qed.

Lemma forkserver_loop_exits (r : fork_round) (rs : list fork_round)
    (st : afl_state) (t : list event) (c : Z) :
  forkserver_round r st = (t, Exited c) →
  forkserver_loop (r :: rs) st = (t, Exited c).
Proof. intros H. simpl. by rewrite H. Qed.

Lemma afl_forkserver_engaged (os : os_answers) (st : afl_state) bm :
  afl_area_ptr st = Some bm → handshake_write os = 4 →
  afl_forkserver os st =
  (handshake_trace os ++
     trace (forkserver_loop (rounds os)
              (set_forksrv_pid (to_uint (getpid_ret os)) st)),
   result (forkserver_loop (rounds os)
             (set_forksrv_pid (to_uint (getpid_ret os)) st))).
Proof.
  intros Hbm Hhs. unfold afl_forkserver, handshake_trace.
  rewrite Hbm, Hhs. case_decide; [lia|]. simpl.
  by destruct (forkserver_loop _ _).
Qed.

Lemma waits_right_after_pid_write_round (r : fork_round) (st : afl_state)
    (rest : list event) :
  waits_right_after_pid_write rest = true →
  (result (forkserver_round r st) ≠ Done None → rest = []) →
  waits_right_after_pid_write (trace (forkserver_round r st) ++ rest) = true.
Proof.
  intros Hrest Hend. unfold forkserver_round in *.
  repeat case_decide; simpl in *;
    rewrite ?bool_decide_eq_true_2 by done; simpl;
    try (rewrite Hend by done); simpl;
    rewrite ?bool_decide_eq_true_2 by done; done.
Qed.

Lemma waits_right_after_pid_write_loop (rs : list fork_round) (st : afl_state) :
  waits_right_after_pid_write (trace (forkserver_loop rs st)) = true.
Proof.
  induction rs as [|r rs IH]; [done|]. simpl.
  pose proof (waits_right_after_pid_write_round r st) as Hround.
  destruct (forkserver_round r st) as [t [[st'|]|c| |]] eqn:Hr; simpl in *.
  - by apply (Hround []).
  - destruct (forkserver_loop rs st) as [t' o] eqn:Hl. simpl in *.
    apply Hround; [done|]. by intros [].
  - rewrite <- (app_nil_r t). by apply (Hround []).
  - rewrite <- (app_nil_r t). by apply (Hround []).
  - rewrite <- (app_nil_r t). by apply (Hround []).
Qed.

(** C1, as the code has it: in every run of the fork server, a write of the
    child's pid that is not short is followed at once by the [waitpid] for
    that child, with no call in between; a short one is the last call made;
    the parent reads from no descriptor but [FORKSRV_FD] and never calls the
    translation engine.  The relay is not drained. *)
Theorem parent_waits_right_after_pid_write (os : os_answers) (st : afl_state) :
  waits_right_after_pid_write (trace (afl_forkserver os st)) = true.
Proof.
  unfold afl_forkserver. destruct (afl_area_ptr st); [|done].
  case_decide; simpl.
  - done.
  - pose proof (waits_right_after_pid_write_loop (rounds os)
                  (set_forksrv_pid (to_uint (getpid_ret os)) st)) as Hloop.
    by destruct (forkserver_loop _ _).
Qed.

(** C5: in a turn of the loop each framing failure ends the process at the
    failing call (after the "Parent dead" line for the go signal): a read of
    the go signal that does not return 4, a failed [fork], a short write of
    the child pid, a failed [waitpid], a short write of the status.  The same
    holds in a whole run of [afl_forkserver], after any number of turns the
    parent got through: no call follows the failing turn's.  The five exit
    codes are pairwise distinct and non-zero, and the go signal has code 2. *)
Theorem framing_failures_exit (r : fork_round) (st : afl_state) :
  (go_read r ≠ 4 →
   forkserver_round r st =
   ([EvRead FORKSRV_FD 4 (go_read r); EvPuts "[!] Parent dead!"],
    Exited (exit_code GoReadShort))) ∧
  (go_read r = 4 → fork_ret r < 0 →
   forkserver_round r st =
   ([EvRead FORKSRV_FD 4 4; EvFork (fork_ret r)],
    Exited (exit_code ForkFailed))) ∧
  (go_read r = 4 → 0 < fork_ret r → pid_write r ≠ 4 →
   forkserver_round r st =
   ([EvRead FORKSRV_FD 4 4; EvFork (fork_ret r);
     EvPrintf fmt_parent_waits [];
     EvWrite (FORKSRV_FD + 1) (BufChildPid (fork_ret r)) 4 (pid_write r)],
    Exited (exit_code PidWriteShort))) ∧
  (go_read r = 4 → 0 < fork_ret r → pid_write r = 4 → waitpid_ret r < 0 →
   forkserver_round r st =
   ([EvRead FORKSRV_FD 4 4; EvFork (fork_ret r);
     EvPrintf fmt_parent_waits [];
     EvWrite (FORKSRV_FD + 1) (BufChildPid (fork_ret r)) 4 4;
     EvWaitpid (fork_ret r) (waitpid_ret r)],
    Exited (exit_code WaitpidFailed))) ∧
  (go_read r = 4 → 0 < fork_ret r → pid_write r = 4 → 0 <= waitpid_ret r →
   status_write r ≠ 4 →
   forkserver_round r st =
   ([EvRead FORKSRV_FD 4 4; EvFork (fork_ret r);
     EvPrintf fmt_parent_waits [];
     EvWrite (FORKSRV_FD + 1) (BufChildPid (fork_ret r)) 4 4;
     EvWaitpid (fork_ret r) (waitpid_ret r);
     EvWrite (FORKSRV_FD + 1) (BufStatus (waitpid_status r)) 4 (status_write r)],
    Exited (exit_code StatusWriteShort))) ∧
  (∀ (os : os_answers) (st0 : afl_state) (bm : list Z)
     (before after : list fork_round) (t : list event) (c : Z),
     afl_area_ptr st0 = Some bm → handshake_write os = 4 →
     st = set_forksrv_pid (to_uint (getpid_ret os)) st0 →
     rounds os = before ++ r :: after → Forall completes before →
     forkserver_round r st = (t, Exited c) →
     afl_forkserver os st0 =
     (handshake_trace os ++ concat (complete_round_trace <$> before) ++ t,
      Exited c)) ∧
  (∀ k1 k2, exit_code k1 = exit_code k2 → k1 = k2) ∧
  (∀ k, exit_code k ≠ 0) ∧
  exit_code GoReadShort = 2.
Proof.
  repeat split.
  - intros. unfold forkserver_round. by rewrite decide_True.
  - intros Hgo ?. unfold forkserver_round. rewrite Hgo.
    repeat (case_decide; try lia). done.
  - intros Hgo ? ?. unfold forkserver_round. rewrite Hgo.
    repeat (case_decide; try lia). done.
  - intros Hgo ? Hpid ?. unfold forkserver_round. rewrite Hgo, Hpid.
    repeat (case_decide; try lia). done.
  - intros Hgo ? Hpid ? ?. unfold forkserver_round. rewrite Hgo, Hpid.
    repeat (case_decide; try lia). done.
  - intros os st0 bm before after t c Hbm Hhs -> Hrs Hbefore Hr.
    rewrite (afl_forkserver_engaged os st0 bm Hbm Hhs), Hrs.
    rewrite (forkserver_loop_completes before _ _ Hbefore).
    by rewrite (forkserver_loop_exits _ _ _ _ _ Hr).
  - intros [] []; simpl; intros; done || lia.
  - by intros [].
Qed.

(** C6: with the bitmap attached, when the first write to [FORKSRV_FD + 1]
    returns anything but 4, [afl_forkserver] returns to its caller with the
    state unchanged, having made that write and nothing after it: no read of
    a go signal, no [fork], no exit. *)
Theorem handshake_refused_returns (os : os_answers) (st : afl_state) bm :
  afl_area_ptr st = Some bm →
  handshake_write os ≠ 4 →
  afl_forkserver os st =
  ([EvPrintf fmt_write_to_afl [BufBytes tmp];
    EvWrite (FORKSRV_FD + 1) (BufBytes tmp) 4 (handshake_write os)],
   Done st).
Proof.
  intros Hbm Hhs. unfold afl_forkserver. rewrite Hbm.
  by rewrite decide_True.
Qed.

(** C7: with a null [afl_area_ptr] the logger returns at once, leaving the
    whole state (bitmap pointer and every [prev_loc]) as it was, and the fork
    server returns without a single call: no handshake, no descriptor
    input or output. *)
Theorem unattached_is_noop (tid : nat) (addr : Z) (os : os_answers)
    (st : afl_state) :
  afl_area_ptr st = None →
  afl_maybe_log tid addr st = Some st ∧
  afl_forkserver os st = ([], Done st).
Proof.
  intros Hnull. unfold afl_maybe_log, afl_forkserver. by rewrite Hnull.
Qed.

(** ** The relay receiver *)

Lemma afl_wait_tsl_full (fd : Z) (msgs : list afl_tsl)
    (reads : list (Z * afl_tsl)) :
  afl_wait_tsl fd (((λ m, (sizeof_afl_tsl, m)) <$> msgs) ++ reads) =
  (((λ _, EvRead fd sizeof_afl_tsl sizeof_afl_tsl) <$> msgs)
     ++ trace (afl_wait_tsl fd reads),
   result (afl_wait_tsl fd reads)).
Proof.
  induction msgs as [|m msgs IH]; csimpl.
  - by destruct (afl_wait_tsl fd reads).
  - rewrite decide_False by (intros H; by apply H).
    by rewrite IH.
Qed.

(** C2, as the code has it: the receiver reads records until a read returns
    something other than the size of a record, then closes the channel and
    returns; these reads and the close are all it does: the records are
    dropped and the translation engine is not called. *)
Theorem afl_wait_tsl_reads_until_short (fd : Z) (msgs : list afl_tsl)
    (n : Z) (t : afl_tsl) (rest : list (Z * afl_tsl)) :
  n ≠ sizeof_afl_tsl →
  afl_wait_tsl fd (((λ m, (sizeof_afl_tsl, m)) <$> msgs) ++ (n, t) :: rest) =
  (((λ _, EvRead fd sizeof_afl_tsl sizeof_afl_tsl) <$> msgs)
     ++ [EvRead fd sizeof_afl_tsl n; EvClose fd],
   Done ()).
Proof.
  intros Hn. rewrite afl_wait_tsl_full. csimpl.
  by rewrite decide_True.
Qed.

(** ** More on the fork server *)

Lemma afl_forkserver_declined (os : os_answers) (st : afl_state) bm :
  afl_area_ptr st = Some bm → handshake_write os ≠ 4 →
  afl_forkserver os st =
  ([EvPrintf fmt_write_to_afl [BufBytes tmp];
    EvWrite (FORKSRV_FD + 1) (BufBytes tmp) 4 (handshake_write os)],
   Done st).
Proof.
  intros Hbm Hhs. unfold afl_forkserver. rewrite Hbm.
  by rewrite decide_True.
Qed.

(** How a turn of the loop can end. *)
Lemma forkserver_round_ends (r : fork_round) (st : afl_state) :
  (result (forkserver_round r st) = Done None ∧ completes r ∧
   trace (forkserver_round r st) = complete_round_trace r) ∨
  (result (forkserver_round r st) = Done (Some (set_fork_child 1 st)) ∧
   go_read r = 4 ∧ fork_ret r = 0 ∧
   trace (forkserver_round r st) =
     [EvRead FORKSRV_FD 4 4; EvFork 0; EvClose FORKSRV_FD;
      EvClose (FORKSRV_FD + 1)]) ∨
  (∃ k, result (forkserver_round r st) = Exited (exit_code k) ∧
        ¬ completes r ∧ ¬ (go_read r = 4 ∧ fork_ret r = 0)).
Proof.
  unfold forkserver_round, completes.
  destruct (decide (go_read r ≠ 4)) as [Hgo|Hgo].
  { right. right. exists GoReadShort. split; [done|]. lia. }
  assert (go_read r = 4) as Hgo4 by lia. rewrite Hgo4.
  destruct (decide (fork_ret r < 0)).
  { right. right. exists ForkFailed. split; [done|]. lia. }
  destruct (decide (fork_ret r = 0)) as [H0|H0].
  { right. left. rewrite H0. done. }
  destruct (decide (pid_write r ≠ 4)) as [Hp|Hp].
  { right. right. exists PidWriteShort. split; [done|]. lia. }
  assert (pid_write r = 4) as Hp4 by lia. rewrite Hp4.
  destruct (decide (waitpid_ret r < 0)).
  { right. right. exists WaitpidFailed. split; [done|]. lia. }
  destruct (decide (status_write r ≠ 4)) as [Hs|Hs].
  { right. right. exists StatusWriteShort. split; [done|]. lia. }
  assert (status_write r = 4) as Hs4 by lia. rewrite Hs4.
  left. split; [done|]. split; [lia|done].
Qed.

Lemma forkserver_loop_unfold (r : fork_round) (rs : list fork_round)
    (st : afl_state) :
  forkserver_loop (r :: rs) st =
  match result (forkserver_round r st) with
  | Done (Some st') => (trace (forkserver_round r st), Done st')
  | Done None =>
      (trace (forkserver_round r st) ++ trace (forkserver_loop rs st),
       result (forkserver_loop rs st))
  | Exited c => (trace (forkserver_round r st), Exited c)
  | Blocked => (trace (forkserver_round r st), Blocked)
  | Fault => (trace (forkserver_round r st), Fault)
  end.
Proof.
  simpl. destruct (forkserver_round r st) as [t [[st'|]|c| |]]; simpl;
    rewrite ?app_nil_r; try done.
  by destruct (forkserver_loop rs st).
Qed.

(** How the loop can end, and what each ending tells about the turns. *)
Lemma forkserver_loop_ends (rs : list fork_round) (st : afl_state) :
  (result (forkserver_loop rs st) = Blocked ∧ Forall completes rs ∧
   EvFork 0 ∉ trace (forkserver_loop rs st)) ∨
  (result (forkserver_loop rs st) = Done (set_fork_child 1 st) ∧
   Exists (λ r, fork_ret r = 0) rs ∧ ¬ Forall completes rs ∧
   EvFork 0 ∈ trace (forkserver_loop rs st)) ∨
  (∃ k, result (forkserver_loop rs st) = Exited (exit_code k) ∧
        ¬ Forall completes rs).
Proof.
  induction rs as [|r rs IH].
  - left. simpl. split; [done|]. split; [done|]. apply not_elem_of_nil.
  - rewrite forkserver_loop_unfold.
    destruct (forkserver_round_ends r st)
      as [(Hres & Hc & Htr)|[(Hres & Hgo & H0 & Htr)|(k & Hres & Hnc & _)]];
      rewrite Hres; simpl.
    + rewrite Htr.
      assert (EvFork 0 ∉ complete_round_trace r) as Hnf.
      { unfold complete_round_trace. destruct Hc as (_ & Hpos & _).
        rewrite !not_elem_of_cons. repeat split; try done.
        - intros [= ?]. lia.
        - apply not_elem_of_nil. }
      destruct IH as [(Hb & Hall & Hnot)|[(Hd & Hex & Hnall & Hin)|(k & He & Hnall)]].
      * left. split; [done|]. split; [by constructor|].
        rewrite not_elem_of_app. done.
      * right. left. split; [done|]. split; [by apply Exists_cons_tl|].
        split; [by intros Hall; apply Hnall; inversion Hall|].
        apply elem_of_app. by right.
      * right. right. exists k. split; [done|].
        by intros Hall; apply Hnall; inversion Hall.
    + right. left. split; [done|]. split; [by apply Exists_cons_hd|].
      split.
      * intros Hall. inversion Hall as [|? ? (_ & Hpos & _) _]. lia.
      * rewrite Htr. rewrite !elem_of_cons. auto.
    + right. right. exists k. split; [done|].
      intros Hall. apply Hnc. by inversion Hall.
Qed.

Lemma handshake_trace_no_fork (os : os_answers) :
  EvFork 0 ∉ handshake_trace os.
Proof.
  unfold handshake_trace. rewrite !not_elem_of_cons.
  repeat split; try done. apply not_elem_of_nil.
Qed.

(** X15: in the child, after any number of turns the parent got through,
    [afl_forkserver] closes both fork-server descriptors and returns with
    [afl_fork_child] set and [afl_forksrv_pid] holding the server's pid; the
    child writes nothing to the controller. *)
Theorem forkserver_child_returns (os : os_answers) (st : afl_state) bm
    (before after : list fork_round) (r : fork_round) :
  afl_area_ptr st = Some bm → handshake_write os = 4 →
  rounds os = before ++ r :: after → Forall completes before →
  go_read r = 4 → fork_ret r = 0 →
  afl_forkserver os st =
  (handshake_trace os ++ concat (complete_round_trace <$> before) ++
     [EvRead FORKSRV_FD 4 4; EvFork 0; EvClose FORKSRV_FD;
      EvClose (FORKSRV_FD + 1)],
   Done (set_fork_child 1 (set_forksrv_pid (to_uint (getpid_ret os)) st))).
Proof.
  intros Hbm Hhs Hrs Hbefore Hgo H0.
  rewrite (afl_forkserver_engaged os st bm Hbm Hhs), Hrs.
  rewrite (forkserver_loop_completes before _ _ Hbefore).
  rewrite forkserver_loop_unfold.
  destruct (forkserver_round_ends r
              (set_forksrv_pid (to_uint (getpid_ret os)) st))
    as [(_ & (_ & Hpos & _) & _)|[(Hres & _ & _ & Htr)|(_ & _ & _ & Hn)]].
  - lia.
  - rewrite Hres. simpl. by rewrite Htr.
  - by destruct Hn.
Qed.

(** X16: the parent never leaves the loop by itself: once the handshake is made,
    the fork server stays blocked on the go signal exactly when the parent
    got through every turn it was given, and its calls are then the
    handshake followed by the calls of these turns, in order. *)
Theorem forkserver_blocks_iff_turns_complete (os : os_answers)
    (st : afl_state) bm :
  afl_area_ptr st = Some bm → handshake_write os = 4 →
  (result (afl_forkserver os st) = Blocked ↔ Forall completes (rounds os)) ∧
  (Forall completes (rounds os) →
   trace (afl_forkserver os st) =
   handshake_trace os ++ concat (complete_round_trace <$> rounds os)).
Proof.
  intros Hbm Hhs. rewrite (afl_forkserver_engaged os st bm Hbm Hhs). simpl.
  set (st1 := set_forksrv_pid (to_uint (getpid_ret os)) st).
  split.
  - destruct (forkserver_loop_ends (rounds os) st1)
      as [(Hres & Hall & _)|[(Hres & _ & Hnall & _)|(k & Hres & Hnall)]];
      rewrite Hres; split; done.
  - intros Hall.
    pose proof (forkserver_loop_completes (rounds os) [] st1 Hall) as Heq.
    rewrite app_nil_r in Heq. rewrite Heq. simpl. by rewrite app_nil_r.
Qed.

Lemma afl_forkserver_done (os : os_answers) (st st' : afl_state) :
  result (afl_forkserver os st) = Done st' →
  (st' = st ∧ EvFork 0 ∉ trace (afl_forkserver os st)) ∨
  (st' = set_fork_child 1 (set_forksrv_pid (to_uint (getpid_ret os)) st) ∧
   EvFork 0 ∈ trace (afl_forkserver os st) ∧
   Exists (λ r, fork_ret r = 0) (rounds os)).
Proof.
  destruct (afl_area_ptr st) as [bm|] eqn:Hbm.
  - destruct (decide (handshake_write os = 4)) as [Hhs|Hhs].
    + rewrite (afl_forkserver_engaged os st bm Hbm Hhs). simpl.
      destruct (forkserver_loop_ends (rounds os)
                  (set_forksrv_pid (to_uint (getpid_ret os)) st))
        as [(Hres & _)|[(Hres & Hex & _ & Hin)|(k & Hres & _)]];
        rewrite Hres; try done.
      intros [= <-]. right. split; [done|]. split; [|done].
      rewrite !elem_of_cons. auto 10.
    + rewrite (afl_forkserver_declined os st bm Hbm Hhs). simpl.
      intros [= <-]. left. split; [done|].
      rewrite !not_elem_of_cons. repeat split; try done. apply not_elem_of_nil.
  - unfold afl_forkserver. rewrite Hbm. simpl. intros [= <-]. left.
    split; [done|]. apply not_elem_of_nil.
Qed.

(** X17: when [afl_forkserver] returns, it hands back either the state it was
    given (no bitmap, or the handshake was refused) or that state with
    [afl_forksrv_pid] and [afl_fork_child] set (the child).  In both cases
    the bitmap, every [prev_loc], the sampling rate and the code bounds are
    as before: the fork server never touches coverage data. *)
Theorem forkserver_returns_state (os : os_answers) (st st' : afl_state) :
  result (afl_forkserver os st) = Done st' →
  (st' = st ∨
   st' = set_fork_child 1 (set_forksrv_pid (to_uint (getpid_ret os)) st)) ∧
  afl_area_ptr st' = afl_area_ptr st ∧
  prev_loc st' = prev_loc st ∧
  afl_inst_rms st' = afl_inst_rms st ∧
  afl_start_code st' = afl_start_code st ∧
  afl_end_code st' = afl_end_code st.
Proof.
  intros Hdone.
  destruct (afl_forkserver_done os st st' Hdone) as [[-> _]|[-> _]];
    repeat split; auto.
Qed.

(** X18: with the handshake made, a process in which [fork] never returns 0 (the
    parent) does not come back from [afl_forkserver]: it ends blocked on the
    go signal or exits with one of the five framing codes.  So the parent
    logs no block after the entry point. *)
Theorem forkserver_parent_never_returns (os : os_answers) (st : afl_state) bm :
  afl_area_ptr st = Some bm → handshake_write os = 4 →
  Forall (λ r, fork_ret r ≠ 0) (rounds os) →
  result (afl_forkserver os st) = Blocked ∨
  ∃ k, result (afl_forkserver os st) = Exited (exit_code k).
Proof.
  intros Hbm Hhs Hparent.
  rewrite (afl_forkserver_engaged os st bm Hbm Hhs). simpl.
  destruct (forkserver_loop_ends (rounds os)
              (set_forksrv_pid (to_uint (getpid_ret os)) st))
    as [(Hres & _)|[(_ & Hex & _)|(k & Hres & _)]].
  - by left.
  - apply Exists_exists in Hex as (r & Hin & H0).
    rewrite Forall_forall in Hparent. by destruct (Hparent r Hin).
  - right. by exists k.
Qed.

Lemma framed_round (r : fork_round) (st : afl_state) :
  forallb framed (trace (forkserver_round r st)) = true.
Proof.
  unfold forkserver_round.
  repeat case_decide; simpl; rewrite ?bool_decide_eq_true_2; auto.
Qed.

Lemma framed_loop (rs : list fork_round) (st : afl_state) :
  forallb framed (trace (forkserver_loop rs st)) = true.
Proof.
  induction rs as [|r rs IH]; [done|].
  rewrite forkserver_loop_unfold.
  pose proof (framed_round r st) as Hr.
  destruct (result (forkserver_round r st)) as [[st'|]|c| |]; simpl; try done.
  rewrite forallb_app. by rewrite Hr, IH.
Qed.

(** X19: every message of the fork server has four bytes and goes the right way:
    in any run, each [read] asks for four bytes from [FORKSRV_FD], each
    [write] hands four bytes to [FORKSRV_FD + 1], only these two descriptors
    are ever closed, and neither set-up nor the translation engine is
    called. *)
Theorem forkserver_messages_are_framed (os : os_answers) (st : afl_state) :
  forallb framed (trace (afl_forkserver os st)) = true.
Proof.
  destruct (afl_area_ptr st) as [bm|] eqn:Hbm.
  - destruct (decide (handshake_write os = 4)) as [Hhs|Hhs].
    + rewrite (afl_forkserver_engaged os st bm Hbm Hhs). simpl.
      rewrite bool_decide_eq_true_2 by done. simpl. apply framed_loop.
    + rewrite (afl_forkserver_declined os st bm Hbm Hhs). simpl.
      by rewrite bool_decide_eq_true_2.
  - unfold afl_forkserver. by rewrite Hbm.
Qed.

(** ** More on the translation-request channel *)

(** X20: only a forked child asks for translations: in a process that started
    with [afl_fork_child] clear and came back from [afl_forkserver], the
    request of [AFL_QEMU_CPU_SNIPPET1] writes its record (to [TSL_FD], once, whatever the [write]
    answers) exactly when the fork server forked and this is the child;
    otherwise it makes no call.  The request always returns. *)
Theorem requests_come_from_the_child (os : os_answers) (st st' : afl_state)
    (pc cb flags write_ret : Z) :
  afl_fork_child st = 0 →
  result (afl_forkserver os st) = Done st' →
  result (AFL_QEMU_CPU_SNIPPET1 pc cb flags write_ret st') = Done () ∧
  (EvFork 0 ∈ trace (afl_forkserver os st) →
   trace (AFL_QEMU_CPU_SNIPPET1 pc cb flags write_ret st') =
   [EvWrite TSL_FD (BufTsl (mk_afl_tsl pc cb flags)) sizeof_afl_tsl
      write_ret]) ∧
  (EvFork 0 ∉ trace (afl_forkserver os st) →
   trace (AFL_QEMU_CPU_SNIPPET1 pc cb flags write_ret st') = []).
Proof.
  intros Hchild Hdone. unfold AFL_QEMU_CPU_SNIPPET1, afl_request_tsl.
  destruct (afl_forkserver_done os st st' Hdone) as [[-> Hnf]|[-> [Hf _]]].
  - rewrite decide_True by done. split; [reflexivity|].
    split; [|reflexivity]. intros Hf. by destruct Hnf.
  - simpl. destruct (decide (1 = 0)) as [?|_]; [lia|].
    split; [by case_decide|]. split; [by case_decide|].
    intros Hnf. by destruct Hnf.
Qed.

(** X21: the receiver, on any answers: it makes one [read] per answer up to and
    including the first short one, and not one more; if there is a short
    one it then closes the channel and returns, and if there is none it
    stays blocked.  It never exits and never calls the translation engine. *)
Theorem afl_wait_tsl_stops_at_first_short_read (fd : Z)
    (reads : list (Z * afl_tsl)) :
  afl_wait_tsl fd reads =
  (reads_made fd reads ++
     (if decide (channel_breaks reads) then [EvClose fd] else []),
   if decide (channel_breaks reads) then Done () else Blocked).
Proof.
  unfold reads_made, channel_breaks.
  induction reads as [|[n t] reads IH]; simpl.
  - repeat case_decide; try lia; done.
  - destruct (decide (n ≠ sizeof_afl_tsl)) as [Hn|Hn]; simpl.
    + repeat case_decide; try lia; done.
    + rewrite IH. repeat case_decide; try lia; done.
Qed.

(** ** More on set-up *)

(** X8: a failed [shmat] is fatal: when the shared-memory identifier is set and
    [shmat] answers [(void * )-1], set-up exits with code 1 right after that
    call, whatever else the environment holds. *)
Theorem afl_setup_shmat_failure_exits (environ : gmap string string)
    (st : afl_state) (id_str : string) :
  environ !! SHM_ENV_VAR = Some id_str →
  afl_setup environ None st = ([EvShmat (atoi id_str)], Exited 1).
Proof.
  intros Hid. unfold afl_setup. rewrite Hid.
  by destruct (environ !! "AFL_INST_RATIO"%string).
Qed.

(** X9: without the shared-memory identifier set-up attaches nothing and is no
    error: it returns having called only [rcu_disable_atfork], with the
    bitmap pointer as it was; if that was null, the fork server and the
    logger then do nothing. *)
Theorem afl_setup_without_shm_id (environ : gmap string string)
    (shmat_ret : option (list Z)) (st : afl_state) :
  environ !! SHM_ENV_VAR = None →
  ∃ st',
    afl_setup environ shmat_ret st = ([EvRcuDisableAtfork], Done st') ∧
    afl_area_ptr st' = afl_area_ptr st ∧
    (afl_area_ptr st = None →
     ∀ (os : os_answers) (tid : nat) (addr : Z),
       afl_forkserver os st' = ([], Done st') ∧
       afl_maybe_log tid addr st' = Some st').
Proof.
  intros Hid. unfold afl_setup. rewrite Hid.
  destruct (environ !! "AFL_INST_RATIO"%string);
    destruct (environ !! "AFL_INST_LIBS"%string);
    (eexists; split; [reflexivity|]; split; [done|]);
    simpl; intros Hnull os tid addr;
    unfold afl_forkserver, afl_maybe_log; simpl; by rewrite Hnull.
Qed.

(** X10: with the identifier set and a segment attached, set-up points
    [afl_area_ptr] at the segment; when [AFL_INST_RATIO] is set too it
    stores 1 into the first byte and leaves every other byte alone, and
    otherwise it leaves the whole segment alone. *)
Theorem afl_setup_marks_first_byte (environ : gmap string string)
    (st : afl_state) (id_str : string) (b : Z) (bm : list Z) :
  environ !! SHM_ENV_VAR = Some id_str →
  ∃ st',
    result (afl_setup environ (Some (b :: bm)) st) = Done st' ∧
    afl_area_ptr st' =
      Some ((if environ !! "AFL_INST_RATIO"%string is Some _ then 1 else b)
              :: bm).
Proof.
  intros Hid. unfold afl_setup. rewrite Hid.
  destruct (environ !! "AFL_INST_RATIO"%string);
    destruct (environ !! "AFL_INST_LIBS"%string);
    by eexists.
Qed.

(** X11: [AFL_INST_LIBS] widens the code bounds to the whole address space,
    [0] to the largest [abi_ulong]; without it set-up leaves the bounds as
    the loader set them. *)
Theorem afl_setup_code_bounds (environ : gmap string string)
    (shmat_ret : option (list Z)) (st st' : afl_state) :
  0 <= TARGET_ABI_BITS →
  result (afl_setup environ shmat_ret st) = Done st' →
  if environ !! "AFL_INST_LIBS"%string is Some _
  then afl_start_code st' = 0 ∧ afl_end_code st' = 2 ^ TARGET_ABI_BITS - 1
  else afl_start_code st' = afl_start_code st ∧
       afl_end_code st' = afl_end_code st.
Proof.
  intros Hw.
  assert (to_abi_ulong (-1) = 2 ^ TARGET_ABI_BITS - 1) as Hmax.
  { unfold to_abi_ulong, to_unsigned.
    assert (0 < 2 ^ TARGET_ABI_BITS) by (apply Z.pow_pos_nonneg; lia).
    symmetry. apply (Z.mod_unique_pos _ _ (-1)); lia. }
  unfold afl_setup.
  destruct (environ !! SHM_ENV_VAR); [destruct shmat_ret as [bm|]|];
    destruct (environ !! "AFL_INST_RATIO"%string);
    try destruct (store_byte bm 0 1);
    destruct (environ !! "AFL_INST_LIBS"%string); simpl;
    intros [= <-]; simpl; by rewrite ?Hmax.
Qed.

(** ** Assumptions on the configuration *)

(** [MAP_SIZE - 1] is a value of [abi_ulong]. *)
Hypothesis MAP_SIZE_fits : 1 <= MAP_SIZE <= 2 ^ TARGET_ABI_BITS.

Lemma mask_fits : to_abi_ulong (MAP_SIZE - 1) = MAP_SIZE - 1.
Proof. unfold to_abi_ulong, to_unsigned. apply Z.mod_small. lia. Qed.

Lemma scramble_unwrapped (addr : Z) :
  scramble addr =
  Z.land (Z.lxor (Z.shiftr addr 4) (Z.shiftl addr 8)) (MAP_SIZE - 1).
Proof.
  unfold scramble. rewrite mask_fits. unfold to_abi_ulong, to_unsigned.
  apply land_lxor_wrap. lia.
Qed.

Lemma get_prev_loc_range (tid : nat) (st : afl_state) :
  wf_state st → 0 <= get_prev_loc tid st < MAP_SIZE.
Proof using MAP_SIZE_fits.
  intros [_ Hp]. unfold get_prev_loc.
  destruct (prev_loc st !! tid) as [v|] eqn:E; simpl; [|lia].
  exact (Hp tid v E).
Qed.

(** [MAP_SIZE] is a power of two. *)
Variable MAP_SIZE_POW2 : Z.
Hypothesis MAP_SIZE_POW2_nonneg : 0 <= MAP_SIZE_POW2.
Hypothesis MAP_SIZE_pow2 : MAP_SIZE = 2 ^ MAP_SIZE_POW2.

Lemma scramble_range (addr : Z) : 0 <= scramble addr < MAP_SIZE.
Proof using MAP_SIZE_fits MAP_SIZE_POW2_nonneg MAP_SIZE_pow2.
  rewrite scramble_unwrapped.
  replace (MAP_SIZE - 1) with (Z.ones MAP_SIZE_POW2)
    by (rewrite Z.ones_equiv; lia).
  rewrite Z.land_ones by done. rewrite MAP_SIZE_pow2.
  apply Z.mod_pos_bound. lia.
Qed.

Lemma edge_index_range (tid : nat) (addr : Z) (st : afl_state) :
  wf_state st →
  0 <= Z.lxor (scramble addr) (get_prev_loc tid st) < MAP_SIZE.
Proof using MAP_SIZE_fits MAP_SIZE_POW2_nonneg MAP_SIZE_pow2.
  intros Hwf.
  pose proof (scramble_range addr) as Hs.
  pose proof (get_prev_loc_range tid st Hwf) as Hp.
  rewrite MAP_SIZE_pow2 in *. by apply lxor_range.
Qed.

(** What a call that gets past both early returns does. *)
Lemma afl_maybe_log_records (tid : nat) (addr : Z) (st : afl_state) bm :
  wf_state st →
  afl_area_ptr st = Some bm →
  scramble addr < afl_inst_rms st →
  ∃ b, load_byte bm (Z.lxor (scramble addr) (get_prev_loc tid st)) = Some b ∧
    afl_maybe_log tid addr st =
    Some (set_prev_loc tid (Z.shiftr (scramble addr) 1)
            (set_area
               (Some (<[Z.to_nat (Z.lxor (scramble addr) (get_prev_loc tid st))
                        := incr_uchar b]> bm)) st)).
Proof using MAP_SIZE_fits MAP_SIZE_POW2_nonneg MAP_SIZE_pow2.
  intros Hwf Hbm Hlt.
  pose proof (edge_index_range tid addr st Hwf) as Hidx.
  destruct Hwf as [Hlen _]. specialize (Hlen bm Hbm).
  set (idx := Z.lxor (scramble addr) (get_prev_loc tid st)) in *.
  destruct (lookup_lt_is_Some_2 bm (Z.to_nat idx)) as [b Hb]; [lia|].
  exists b. unfold afl_maybe_log. rewrite Hbm. simpl.
  rewrite decide_False by lia. fold idx.
  unfold load_byte at 1 2. rewrite decide_True by lia. rewrite Hb. simpl.
  unfold store_byte. rewrite decide_True by lia. done.
Qed.

Lemma afl_maybe_log_wf (tid : nat) (addr : Z) (st st' : afl_state) :
  wf_state st → afl_maybe_log tid addr st = Some st' → wf_state st'.
Proof using MAP_SIZE_fits MAP_SIZE_POW2_nonneg MAP_SIZE_pow2.
  intros Hwf Hlog.
  destruct (afl_area_ptr st) as [bm|] eqn:Hbm.
  - destruct (decide (afl_inst_rms st <= scramble addr)) as [Hge|Hlt].
    + rewrite (afl_maybe_log_skips tid addr st bm Hbm Hge) in Hlog.
      by simplify_eq.
    + destruct (afl_maybe_log_records tid addr st bm Hwf Hbm ltac:(lia))
        as (b & _ & Heq).
      rewrite Heq in Hlog. simplify_eq. destruct Hwf as [Hlen Hp]. split.
      * simpl. intros bm' [= <-]. rewrite length_insert. by apply Hlen.
      * simpl. apply map_Forall_insert_2; [|done].
        apply shiftr_1_range, scramble_range.
  - unfold afl_maybe_log in Hlog. rewrite Hbm in Hlog. by simplify_eq.
Qed.

Lemma afl_maybe_log_total (tid : nat) (addr : Z) (st : afl_state) :
  wf_state st → ∃ st', afl_maybe_log tid addr st = Some st'.
Proof using MAP_SIZE_fits MAP_SIZE_POW2_nonneg MAP_SIZE_pow2.
  intros Hwf.
  destruct (afl_area_ptr st) as [bm|] eqn:Hbm.
  - destruct (decide (afl_inst_rms st <= scramble addr)) as [Hge|Hlt].
    + eauto using afl_maybe_log_skips.
    + destruct (afl_maybe_log_records tid addr st bm Hwf Hbm ltac:(lia))
        as (b & _ & Heq). eauto.
  - exists st. unfold afl_maybe_log. by rewrite Hbm.
Qed.

Lemma afl_maybe_log_all_wf (calls : list (nat * Z)) (st : afl_state) :
  wf_state st →
  ∃ st', afl_maybe_log_all calls st = Some st' ∧ wf_state st'.
Proof using MAP_SIZE_fits MAP_SIZE_POW2_nonneg MAP_SIZE_pow2.
  revert st. induction calls as [|[tid addr] calls IH]; intros st Hwf.
  - by exists st.
  - destruct (afl_maybe_log_total tid addr st Hwf) as [st1 H1].
    simpl. rewrite H1. simpl.
    apply IH. eauto using afl_maybe_log_wf.
Qed.

(** ** The logger: scrambling, sampling, counters *)

(** C4: the scrambled index the logger computes in [abi_ulong] arithmetic is
    [(addr >> 4) XOR (addr << 8)] masked to [MAP_SIZE - 1]; it depends on the
    address alone: in whatever state and thread the logger is called, a call
    that records uses this value, both for the counter it increments and for
    the [prev_loc] it leaves. *)
Theorem scramble_shift_xor_mask (addr : Z) :
  scramble addr = spec_scramble addr ∧
  ∀ (tid : nat) (st : afl_state) (bm : list Z),
    wf_state st → afl_area_ptr st = Some bm →
    spec_scramble addr < afl_inst_rms st →
    ∃ st' b,
      afl_maybe_log tid addr st = Some st' ∧
      load_byte bm (Z.lxor (spec_scramble addr) (get_prev_loc tid st)) = Some b ∧
      afl_area_ptr st' =
        Some (<[Z.to_nat (Z.lxor (spec_scramble addr) (get_prev_loc tid st))
                := incr_uchar b]> bm) ∧
      get_prev_loc tid st' = Z.shiftr (spec_scramble addr) 1.
Proof using MAP_SIZE_fits MAP_SIZE_POW2_nonneg MAP_SIZE_pow2.
  pose proof (scramble_unwrapped addr) as Heq. fold (spec_scramble addr) in Heq.
  split; [done|]. intros tid st bm Hwf Hbm Hlt. rewrite <- Heq in *.
  destruct (afl_maybe_log_records tid addr st bm Hwf Hbm Hlt) as (b & Hb & Hlog).
  eexists _, b. split; [exact Hlog|]. split; [done|]. split; [done|].
  rewrite get_prev_loc_set. by rewrite decide_True.
Qed.

(** C9: a call that records an address whose scrambled value is [v] (bitmap
    attached, [v] below the sampling rate) leaves the calling thread's
    [prev_loc] equal to [v >> 1], whatever [prev_loc] held before. *)
Theorem prev_loc_after_recording (tid : nat) (addr : Z) (st : afl_state) bm :
  wf_state st →
  afl_area_ptr st = Some bm →
  scramble addr < afl_inst_rms st →
  ∃ st', afl_maybe_log tid addr st = Some st' ∧
         get_prev_loc tid st' = Z.shiftr (scramble addr) 1.
Proof using MAP_SIZE_fits MAP_SIZE_POW2_nonneg MAP_SIZE_pow2.
  intros Hwf Hbm Hlt.
  destruct (afl_maybe_log_records tid addr st bm Hwf Hbm Hlt) as (b & _ & Hlog).
  eexists. split; [exact Hlog|].
  rewrite get_prev_loc_set. by rewrite decide_True.
Qed.

(** C10: with [MAP_SIZE] a power of two and a segment of [MAP_SIZE] bytes,
    starting from threads whose [prev_loc] is still zero, every call of the
    logger in every run stays inside the bitmap: each thread's [prev_loc] is
    zero or a masked value shifted right by one, the index
    [loc XOR prev_loc] is below [MAP_SIZE], the call completes, and no counter
    other than the one at that index changes. *)
Theorem logger_writes_in_bounds (st0 : afl_state) (calls : list (nat * Z)) :
  (∀ bm, afl_area_ptr st0 = Some bm → Z.of_nat (length bm) = MAP_SIZE) →
  prev_loc st0 = ∅ →
  ∃ st, afl_maybe_log_all calls st0 = Some st ∧
    prev_loc_shifted st ∧
    ∀ (tid : nat) (addr : Z),
      0 <= Z.lxor (scramble addr) (get_prev_loc tid st) < MAP_SIZE ∧
      ∃ st', afl_maybe_log tid addr st = Some st' ∧
        ∀ j, j ≠ Z.lxor (scramble addr) (get_prev_loc tid st) →
             counter j st' = counter j st.
Proof using MAP_SIZE_fits MAP_SIZE_POW2_nonneg MAP_SIZE_pow2.
  intros Hlen Hprev.
  assert (wf_state st0) as Hwf0.
  { split; [done|]. rewrite Hprev. apply map_Forall_empty. }
  assert (prev_loc_shifted st0) as Hsh0.
  { intros tid. left. unfold get_prev_loc. by rewrite Hprev, lookup_empty. }
  destruct (afl_maybe_log_all_wf calls st0 Hwf0) as (st & Hrun & Hwf).
  exists st. split; [done|].
  split; [by eapply afl_maybe_log_all_prev_loc_shifted|].
  intros tid addr. split; [by apply edge_index_range|].
  destruct (afl_maybe_log_total tid addr st Hwf) as [st' Hlog].
  exists st'. split; [done|]. intros j Hj.
  by eapply afl_maybe_log_one_byte.
Qed.

(** C8: each recording replaces the counter [b] of its edge by
    [(b + 1) mod 256], so 255 is followed by 0 and nothing saturates; and a
    run that makes 256 recordings into one counter (256 recordings of one
    edge) leaves that counter at the byte [b] it started from: at 0 when it
    started at 0. *)
Theorem edge_counter_wraps :
  (∀ (tid : nat) (addr : Z) (st : afl_state) (bm : list Z),
     wf_state st → afl_area_ptr st = Some bm →
     scramble addr < afl_inst_rms st →
     ∃ st' b,
       afl_maybe_log tid addr st = Some st' ∧
       counter (Z.lxor (scramble addr) (get_prev_loc tid st)) st = Some b ∧
       counter (Z.lxor (scramble addr) (get_prev_loc tid st)) st'
         = Some ((b + 1) mod 256)) ∧
  (∀ (i b : Z) (calls : list (nat * Z)) (st : afl_state),
     wf_state st → 0 <= b < 256 → counter i st = Some b →
     recordings i calls st = 256%nat →
     ∃ st', afl_maybe_log_all calls st = Some st' ∧ counter i st' = Some b).
Proof using MAP_SIZE_fits MAP_SIZE_POW2_nonneg MAP_SIZE_pow2.
  split.
  - intros tid addr st bm Hwf Hbm Hlt.
    destruct (afl_maybe_log_records tid addr st bm Hwf Hbm Hlt) as (b & Hb & Hlog).
    pose proof (edge_index_range tid addr st Hwf) as Hidx.
    destruct Hwf as [Hlen _]. specialize (Hlen bm Hbm).
    eexists _, b. split; [exact Hlog|]. unfold counter. rewrite Hbm. simpl.
    split; [done|]. unfold load_byte. rewrite decide_True by lia.
    apply list_lookup_insert_eq. lia.
  - intros i b calls st Hwf Hb Hc Hn.
    destruct (afl_maybe_log_all_wf calls st Hwf) as (st' & Hrun & _).
    exists st'. split; [done|].
    rewrite (recordings_counter i b calls st st' Hb Hc Hrun), Hn.
    f_equal. change (Z.of_nat 256) with (1 * 256).
    rewrite Z.mod_add by done. by apply Z.mod_small.
Qed.

Lemma afl_maybe_log_recorded_iff (tid : nat) (addr : Z) (st : afl_state) bm :
  wf_state st → afl_area_ptr st = Some bm →
  ∃ st', afl_maybe_log tid addr st = Some st' ∧
         (recorded st st' ↔ scramble addr < afl_inst_rms st).
Proof using MAP_SIZE_fits MAP_SIZE_POW2_nonneg MAP_SIZE_pow2.
  intros Hwf Hbm. unfold recorded.
  destruct (decide (afl_inst_rms st <= scramble addr)) as [Hge|Hlt].
  - exists st. split; [by eapply afl_maybe_log_skips|]. split; [done|lia].
  - destruct (afl_maybe_log_records tid addr st bm Hwf Hbm ltac:(lia))
      as (b & Hb & Hlog).
    pose proof (edge_index_range tid addr st Hwf) as Hidx.
    destruct Hwf as [Hlen _]. specialize (Hlen bm Hbm).
    eexists. split; [exact Hlog|]. split; [lia|]. intros _. simpl.
    rewrite Hbm. intros [= Heq].
    unfold load_byte in Hb. rewrite decide_True in Hb by lia.
    rewrite <- Heq in Hb. rewrite list_lookup_insert_eq in Hb by lia.
    simplify_eq. by eapply incr_uchar_neq.
Qed.

(** ** More on the logger and on set-up, for a power-of-two bitmap *)

(** X7: the scrambled value reads only the low bits of the address: it is the
    same for the address taken modulo [16 * MAP_SIZE], so two blocks whose
    addresses differ by a multiple of [16 * MAP_SIZE] share their counters. *)
Theorem scramble_reads_low_bits (addr m : Z) :
  scramble addr = scramble (addr mod (16 * MAP_SIZE)) ∧
  scramble (addr + m * (16 * MAP_SIZE)) = scramble addr.
Proof using MAP_SIZE_fits MAP_SIZE_POW2_nonneg MAP_SIZE_pow2.
  assert (∀ a, scramble a = scramble (a mod (16 * MAP_SIZE))) as Hmod.
  { intros a. rewrite !scramble_unwrapped.
    replace (MAP_SIZE - 1) with (Z.ones MAP_SIZE_POW2)
      by (rewrite Z.ones_equiv; lia).
    replace (16 * MAP_SIZE) with (2 ^ (MAP_SIZE_POW2 + 4))
      by (rewrite Z.pow_add_r by lia; lia).
    apply Z.bits_inj'. intros n Hn.
    rewrite !Z.land_spec, !Z.lxor_spec, !Z.shiftr_spec, !Z.shiftl_spec by lia.
    destruct (decide (n < MAP_SIZE_POW2)) as [Hlt|Hge].
    - rewrite (Z.mod_pow2_bits_low a _ (n + 4)) by lia.
      destruct (decide (0 <= n - 8)).
      + by rewrite (Z.mod_pow2_bits_low a _ (n - 8)) by lia.
      + by rewrite !(Z.testbit_neg_r _ (n - 8)) by lia.
    - rewrite Z.ones_spec_high by lia. by rewrite !andb_false_r. }
  split; [apply Hmod|].
  rewrite (Hmod (addr + _)), (Hmod addr). f_equal.
  apply Z.mod_add. lia.
Qed.

Lemma io_bind_result {A B} (m : io A) (f : A → io B) :
  result (m ≫= f) =
  match result m with
  | Done a => result (f a)
  | Exited c => Exited c
  | Blocked => Blocked
  | Fault => Fault
  end.
Proof.
  destruct m as [t [a|c| |]]; simpl; try done. by destruct (f a).
Qed.

(** What set-up keeps of a well-formed state. *)
Lemma afl_setup_wf (environ : gmap string string)
    (shmat_ret : option (list Z)) (st : afl_state) :
  (∀ bm, shmat_ret = Some bm → Z.of_nat (length bm) = MAP_SIZE) →
  wf_state st →
  result (afl_setup environ shmat_ret st) ≠ Fault ∧
  ∀ st', result (afl_setup environ shmat_ret st) = Done st' →
         wf_state st' ∧ afl_entry_point st' = afl_entry_point st ∧
         afl_fork_child st' = afl_fork_child st.
Proof using MAP_SIZE_fits.
  clear MAP_SIZE_POW2 MAP_SIZE_POW2_nonneg MAP_SIZE_pow2.
  intros Hseg [Hlen Hprev]. unfold afl_setup.
  destruct (environ !! SHM_ENV_VAR) as [id_str|];
    [destruct shmat_ret as [bm|]|].
  - specialize (Hseg bm eq_refl).
    assert (store_byte bm 0 1 = Some (<[0%nat := 1]> bm)) as Hstore.
    { unfold store_byte. rewrite decide_True by lia. done. }
    destruct (environ !! "AFL_INST_RATIO"%string); rewrite ?Hstore;
      destruct (environ !! "AFL_INST_LIBS"%string); simpl;
      (split; [done|]); intros st' [= <-]; (split; [|done]);
      (split; [|done]); simpl; intros bm' [= <-];
      by rewrite ?length_insert.
  - destruct (environ !! "AFL_INST_RATIO"%string); simpl; split; done.
  - destruct (environ !! "AFL_INST_RATIO"%string);
      destruct (environ !! "AFL_INST_LIBS"%string); simpl;
      (split; [done|]); intros st' [= <-]; split; done.
Qed.

(** X13: set-up hands the logger a state it is safe on: if the segment [shmat]
    attaches has [MAP_SIZE] bytes, set-up from a well-formed state touches
    no byte outside it, and after it every run of logger calls, by any
    threads, completes inside the bitmap. *)
Theorem afl_setup_then_log_in_bounds (environ : gmap string string)
    (shmat_ret : option (list Z)) (st : afl_state) :
  (∀ bm, shmat_ret = Some bm → Z.of_nat (length bm) = MAP_SIZE) →
  wf_state st →
  result (afl_setup environ shmat_ret st) ≠ Fault ∧
  ∀ st', result (afl_setup environ shmat_ret st) = Done st' →
    ∀ calls, ∃ st'', afl_maybe_log_all calls st' = Some st'' ∧ wf_state st''.
Proof using MAP_SIZE_fits MAP_SIZE_POW2_nonneg MAP_SIZE_pow2.
  intros Hseg Hwf.
  destruct (afl_setup_wf environ shmat_ret st Hseg Hwf) as [Hnf Hdone].
  split; [done|]. intros st' Hst' calls.
  apply afl_maybe_log_all_wf. by apply Hdone.
Qed.

Lemma afl_forkserver_wf (os : os_answers) (st : afl_state) :
  wf_state st →
  result (afl_forkserver os st) ≠ Fault ∧
  ∀ st', result (afl_forkserver os st) = Done st' → wf_state st'.
Proof using Type.
  intros Hwf. split.
  - destruct (afl_area_ptr st) as [bm|] eqn:Hbm.
    + destruct (decide (handshake_write os = 4)) as [Hhs|Hhs].
      * rewrite (afl_forkserver_engaged os st bm Hbm Hhs). simpl.
        destruct (forkserver_loop_ends (rounds os)
                    (set_forksrv_pid (to_uint (getpid_ret os)) st))
          as [(Hres & _)|[(Hres & _)|(k & Hres & _)]]; by rewrite Hres.
      * by rewrite (afl_forkserver_declined os st bm Hbm Hhs).
    + unfold afl_forkserver. by rewrite Hbm.
  - intros st' Hdone.
    by destruct (afl_forkserver_done os st st' Hdone) as [[-> _]|[-> _]].
Qed.

(** X14: the whole snippet is memory-safe: run on a well-formed state, with a
    segment of [MAP_SIZE] bytes if [shmat] attaches one, it never touches a
    byte outside the bitmap, at the entry point or elsewhere, in the parent
    or in the child; and if it returns, the state is well-formed again, so
    the next block can be logged the same way. *)
Theorem snippet2_stays_in_bounds (tid : nat) (pc : Z)
    (environ : gmap string string) (shmat_ret : option (list Z))
    (os : os_answers) (st : afl_state) :
  (∀ bm, shmat_ret = Some bm → Z.of_nat (length bm) = MAP_SIZE) →
  wf_state st →
  result (AFL_QEMU_CPU_SNIPPET2 tid pc environ shmat_ret os st) ≠ Fault ∧
  ∀ st', result (AFL_QEMU_CPU_SNIPPET2 tid pc environ shmat_ret os st)
           = Done st' → wf_state st'.
Proof using MAP_SIZE_fits MAP_SIZE_POW2_nonneg MAP_SIZE_pow2.
  intros Hseg Hwf.
  assert (∀ st1, wf_state st1 →
            result (logged (afl_maybe_log tid (to_abi_ulong pc) st1)) ≠ Fault ∧
            ∀ st', result (logged (afl_maybe_log tid (to_abi_ulong pc) st1))
                     = Done st' → wf_state st') as Hlog.
  { intros st1 Hwf1.
    destruct (afl_maybe_log_total tid (to_abi_ulong pc) st1 Hwf1)
      as [st2 H2]. rewrite H2. simpl. split; [done|].
    intros st' [= <-]. by eapply afl_maybe_log_wf. }
  unfold AFL_QEMU_CPU_SNIPPET2. rewrite io_bind_result.
  destruct (decide (pc = afl_entry_point st)); [|by apply Hlog].
  rewrite io_bind_result.
  destruct (afl_setup_wf environ shmat_ret st Hseg Hwf) as [Hnf Hdone].
  destruct (result (afl_setup environ shmat_ret st)) as [st1|c| |];
    try done.
  destruct (Hdone st1 eq_refl) as (Hwf1 & _).
  destruct (afl_forkserver_wf os st1 Hwf1) as [Hnf2 Hdone2].
  destruct (result (afl_forkserver os st1)) as [st2|c| |]; try done.
  apply Hlog. by apply Hdone2.
Qed.


(** X6: edges are directed: for two blocks with different scrambled values, the
    counter hit when the second follows the first
    ([scramble b XOR (scramble a >> 1)]) is not the counter hit when the
    first follows the second. *)
Theorem edge_direction_is_recorded (a b : Z) :
  scramble a ≠ scramble b →
  Z.lxor (scramble b) (Z.shiftr (scramble a) 1) ≠
  Z.lxor (scramble a) (Z.shiftr (scramble b) 1).
Proof using MAP_SIZE_fits MAP_SIZE_POW2_nonneg MAP_SIZE_pow2.
  intros Hne Heq. apply Hne.
  pose proof (scramble_range a) as Ha. pose proof (scramble_range b) as Hb.
  rewrite MAP_SIZE_pow2 in Ha, Hb.
  apply (lxor_shiftr_1_inj _ _ MAP_SIZE_POW2); [done..|].
  apply (f_equal (Z.lxor (Z.lxor (scramble a) (scramble b)))) in Heq.
  rewrite !Z.lxor_assoc in Heq.
  rewrite (Z.lxor_comm (scramble b) (Z.lxor (scramble b) _)) in Heq.
  rewrite !Z.lxor_assoc in Heq.
  apply Z.bits_inj'. intros n Hn.
  apply (f_equal (λ z, Z.testbit z n)) in Heq.
  rewrite !Z.lxor_spec in *.
  destruct (Z.testbit (scramble a) n), (Z.testbit (scramble b) n),
    (Z.testbit (Z.shiftr (scramble a) 1) n),
    (Z.testbit (Z.shiftr (scramble b) 1) n); done.
Qed.

(** ** The sampling rate chosen by set-up *)

(** [MAP_SIZE * 100] does not overflow an [unsigned int]. *)
Hypothesis MAP_SIZE_ratio_fits : MAP_SIZE * 100 < 2 ^ 32.

(** The clamped ratio and the rate computed from it, lines 143-148. *)
Lemma inst_rms_of_ratio (r : Z) :
  0 <= r →
  to_uint (to_uint MAP_SIZE *
             (if decide ((if decide (100 < r) then 100 else r) = 0) then 1
              else if decide (100 < r) then 100 else r)) / 100
  = spec_rate r.
Proof.
  clear MAP_SIZE_POW2 MAP_SIZE_POW2_nonneg MAP_SIZE_pow2.
  intros Hr. unfold spec_rate, to_uint.
  rewrite (Z.mod_small MAP_SIZE) by lia.
  destruct (decide (100 < r)).
  - rewrite decide_False by lia. rewrite Z.mod_small by lia. done.
  - destruct (decide (r = 0)).
    + rewrite Z.mod_small by lia. done.
    + rewrite Z.mod_small by nia. done.
Qed.

Lemma afl_setup_rate_done (environ : gmap string string)
    (shmat_ret : option (list Z)) (st st' : afl_state) (inst_r : string) :
  environ !! "AFL_INST_RATIO"%string = Some inst_r →
  result (afl_setup environ shmat_ret st) = Done st' →
  afl_inst_rms st' = spec_rate (to_uint (atoi inst_r)).
Proof.
  clear MAP_SIZE_POW2 MAP_SIZE_POW2_nonneg MAP_SIZE_pow2.
  intros Hr. unfold afl_setup. rewrite Hr.
  assert (0 <= to_uint (atoi inst_r)) as Hnn
    by (unfold to_uint; apply Z.mod_pos_bound; lia).
  pose proof (inst_rms_of_ratio _ Hnn) as Hrate.
  destruct (environ !! SHM_ENV_VAR); [destruct shmat_ret as [bm|]|];
    try destruct (store_byte bm 0 1);
    destruct (environ !! "AFL_INST_LIBS"%string); simpl;
    intros [= <-]; exact Hrate.
Qed.

Lemma afl_setup_returns (environ : gmap string string)
    (shmat_ret : option (list Z)) (st : afl_state) :
  environ !! SHM_ENV_VAR = None ∨ (∃ b bm, shmat_ret = Some (b :: bm)) →
  ∃ st', result (afl_setup environ shmat_ret st) = Done st'.
Proof.
  intros Hshm. unfold afl_setup.
  destruct Hshm as [->|(b & bm & ->)].
  - destruct (environ !! "AFL_INST_RATIO"%string);
      destruct (environ !! "AFL_INST_LIBS"%string); by eexists.
  - destruct (environ !! SHM_ENV_VAR);
      destruct (environ !! "AFL_INST_RATIO"%string);
      destruct (environ !! "AFL_INST_LIBS"%string); by eexists.
Qed.

(** C3: with the bitmap attached, a call records (changes the bitmap) exactly
    when the scrambled address is below the sampling rate; a rate of
    [MAP_SIZE] records every address; when the ratio input is present set-up
    stores the rate [MAP_SIZE * ratio / 100], with ratio 0 taken as 1 and a
    ratio above 100 as 100, so a ratio of 0 gives the rate of a ratio of 1
    and a ratio of 100 or more gives [MAP_SIZE]. *)
Theorem sampling_rate_decides_recording :
  (∀ (tid : nat) (addr : Z) (st : afl_state) (bm : list Z),
     wf_state st → afl_area_ptr st = Some bm →
     ∃ st', afl_maybe_log tid addr st = Some st' ∧
            (recorded st st' ↔ scramble addr < afl_inst_rms st) ∧
            (afl_inst_rms st = MAP_SIZE → recorded st st')) ∧
  (∀ (environ : gmap string string) (shmat_ret : option (list Z))
     (st : afl_state) (inst_r : string),
     environ !! "AFL_INST_RATIO"%string = Some inst_r →
     environ !! SHM_ENV_VAR = None ∨ (∃ b bm, shmat_ret = Some (b :: bm)) →
     ∃ st', result (afl_setup environ shmat_ret st) = Done st' ∧
            afl_inst_rms st' = spec_rate (to_uint (atoi inst_r))) ∧
  (∀ (env0 env1 : gmap string string) (shm0 shm1 : option (list Z))
     (st0 st1 st0' st1' : afl_state) (r0 r1 : string),
     env0 !! "AFL_INST_RATIO"%string = Some r0 → atoi r0 = 0 →
     env1 !! "AFL_INST_RATIO"%string = Some r1 → atoi r1 = 1 →
     result (afl_setup env0 shm0 st0) = Done st0' →
     result (afl_setup env1 shm1 st1) = Done st1' →
     afl_inst_rms st0' = afl_inst_rms st1') ∧
  (∀ ratio, 100 <= ratio → spec_rate ratio = MAP_SIZE).
Proof using MAP_SIZE_fits MAP_SIZE_POW2_nonneg MAP_SIZE_pow2 MAP_SIZE_ratio_fits.
  split; [|split; [|split]].
  - intros tid addr st bm Hwf Hbm.
    destruct (afl_maybe_log_recorded_iff tid addr st bm Hwf Hbm)
      as (st' & Hlog & Hiff).
    exists st'. split; [done|]. split; [done|].
    intros HR. apply Hiff. rewrite HR. apply scramble_range.
  - intros environ shmat_ret st inst_r Hr Hshm.
    destruct (afl_setup_returns environ shmat_ret st Hshm) as [st' Hdone].
    exists st'. split; [done|]. by eapply afl_setup_rate_done.
  - intros env0 env1 shm0 shm1 st0 st1 st0' st1' r0 r1 H0 Ha0 H1 Ha1 Hd0 Hd1.
    rewrite (afl_setup_rate_done _ _ _ _ _ H0 Hd0).
    rewrite (afl_setup_rate_done _ _ _ _ _ H1 Hd1).
    by rewrite Ha0, Ha1.
  - intros ratio Hr. unfold spec_rate.
    destruct (decide (100 < ratio)).
    + by rewrite Z.div_mul by lia.
    + assert (ratio = 100) as -> by lia. rewrite decide_False by lia.
      by rewrite Z.div_mul by lia.
Qed.

(** X12: set-up keeps the sampling rate in range: started from the loader's
    state it returns with [0 <= afl_inst_rms <= MAP_SIZE], whatever
    [AFL_INST_RATIO] holds (nothing, a negative number, a number above 100),
    and with a rate above 0 when [MAP_SIZE] is at least 100. *)
Theorem afl_setup_rate_in_range (environ : gmap string string)
    (shmat_ret : option (list Z)) (st' : afl_state) :
  result (afl_setup environ shmat_ret initial_state) = Done st' →
  0 <= afl_inst_rms st' <= MAP_SIZE ∧
  (100 <= MAP_SIZE → 0 < afl_inst_rms st').
Proof using MAP_SIZE_fits MAP_SIZE_ratio_fits.
  clear MAP_SIZE_POW2 MAP_SIZE_POW2_nonneg MAP_SIZE_pow2.
  intros Hdone.
  destruct (environ !! "AFL_INST_RATIO"%string) as [inst_r|] eqn:Hr.
  - rewrite (afl_setup_rate_done environ shmat_ret _ st' inst_r Hr Hdone).
    unfold spec_rate.
    set (c := if decide (100 < to_uint (atoi inst_r)) then 100
              else if decide (to_uint (atoi inst_r) = 0) then 1
                   else to_uint (atoi inst_r)).
    assert (1 <= c <= 100) as Hc.
    { unfold c. pose proof (Z.mod_pos_bound (atoi inst_r) (2 ^ 32)) as Hb.
      unfold to_uint. repeat case_decide; lia. }
    split; [split|].
    + apply Z.div_pos; nia.
    + apply Z.div_le_upper_bound; nia.
    + intros HM. apply Z.div_str_pos. nia.
  - assert (afl_inst_rms st' = MAP_SIZE) as ->; [|lia].
    revert Hdone. unfold afl_setup. rewrite Hr.
    destruct (environ !! SHM_ENV_VAR); [destruct shmat_ret as [bm|]|];
      destruct (environ !! "AFL_INST_LIBS"%string); simpl;
      intros [= <-]; simpl; unfold to_uint; apply Z.mod_small; lia.
Qed.

End Afl.

(** ** The model at work on the stock configuration *)

Lemma wf_attached_64k : wf_state 65536 attached_64k.
Proof.
  split; [|apply map_Forall_empty].
  intros bm [= <-]. unfold bitmap_64k. by rewrite length_replicate.
Defined.

Lemma fits_64k : 1 <= 65536 <= 2 ^ 64.
Proof. split; by vm_compute. Defined.

Lemma scramble_shift_xor_mask_witness :
  scramble 65536 64 4198400 = spec_scramble 65536 4198400 ∧
  ∃ st' b,
    afl_maybe_log 65536 64 0%nat 4198400 attached_64k = Some st' ∧
    load_byte bitmap_64k
      (Z.lxor (spec_scramble 65536 4198400) (get_prev_loc 0%nat attached_64k))
      = Some b ∧
    afl_area_ptr st' =
      Some (<[Z.to_nat (Z.lxor (spec_scramble 65536 4198400)
                          (get_prev_loc 0%nat attached_64k))
              := incr_uchar b]> bitmap_64k) ∧
    get_prev_loc 0%nat st' = Z.shiftr (spec_scramble 65536 4198400) 1.
Proof.
  destruct (scramble_shift_xor_mask 65536 64 fits_64k 16 ltac:(done)
              eq_refl 4198400) as [H1 H2].
  split; [exact H1|].
  apply (H2 0%nat attached_64k bitmap_64k wf_attached_64k eq_refl).
  by vm_compute.
Defined.

Lemma prev_loc_after_recording_witness :
  ∃ st', afl_maybe_log 65536 64 0%nat 4198400 attached_64k = Some st' ∧
         get_prev_loc 0%nat st' = Z.shiftr (scramble 65536 64 4198400) 1.
Proof.
  apply (prev_loc_after_recording 65536 64 fits_64k 16 ltac:(done) eq_refl
           0%nat 4198400 attached_64k bitmap_64k wf_attached_64k eq_refl).
  by vm_compute.
Defined.

Lemma logger_writes_in_bounds_witness :
  ∃ st,
    afl_maybe_log_all 65536 64
      [(0%nat, 4198400); (1%nat, 4198416); (0%nat, 4198400)] attached_64k
      = Some st ∧
    prev_loc_shifted 65536 64 st ∧
    ∀ (tid : nat) (addr : Z),
      0 <= Z.lxor (scramble 65536 64 addr) (get_prev_loc tid st) < 65536 ∧
      ∃ st', afl_maybe_log 65536 64 tid addr st = Some st' ∧
        ∀ j, j ≠ Z.lxor (scramble 65536 64 addr) (get_prev_loc tid st) →
             counter j st' = counter j st.
Proof.
  apply (logger_writes_in_bounds 65536 64 fits_64k 16 ltac:(done) eq_refl
           attached_64k).
  - intros bm [= <-]. unfold bitmap_64k. by rewrite length_replicate.
  - reflexivity.
Defined.

Lemma edge_counter_wraps_witness :
  (∃ st' b,
     afl_maybe_log 65536 64 0%nat 4198400 attached_64k = Some st' ∧
     counter (Z.lxor (scramble 65536 64 4198400)
                (get_prev_loc 0%nat attached_64k)) attached_64k = Some b ∧
     counter (Z.lxor (scramble 65536 64 4198400)
                (get_prev_loc 0%nat attached_64k)) st'
       = Some ((b + 1) mod 256)) ∧
  (∃ st', afl_maybe_log_all 65536 64 (replicate 257 (0%nat, 4198400))
            attached_64k = Some st' ∧
          counter 384 st' = Some 0).
Proof.
  destruct (edge_counter_wraps 65536 64 fits_64k 16 ltac:(done) eq_refl)
    as [H1 H2].
  split.
  - apply (H1 0%nat 4198400 attached_64k bitmap_64k wf_attached_64k eq_refl).
    by vm_compute.
  - apply (H2 384 0 (replicate 257 (0%nat, 4198400)) attached_64k
             wf_attached_64k).
    + lia.
    + by vm_compute.
    + by vm_compute.
Defined.

Lemma sampling_rate_decides_recording_witness :
  (∃ st', afl_maybe_log 65536 64 0%nat 4198400 attached_64k = Some st' ∧
          (recorded attached_64k st' ↔
           scramble 65536 64 4198400 < afl_inst_rms attached_64k) ∧
          (afl_inst_rms attached_64k = 65536 → recorded attached_64k st')) ∧
  (∃ st', result (afl_setup 65536 "__AFL_SHM_ID" 64 atoi_decimal
                    (environ_ratio "0") None unattached_64k) = Done st' ∧
          afl_inst_rms st' = spec_rate 65536 (to_uint (atoi_decimal "0"))) ∧
  spec_rate 65536 250 = 65536.
Proof.
  destruct (sampling_rate_decides_recording 65536 "__AFL_SHM_ID" 64
              atoi_decimal fits_64k 16 ltac:(done) eq_refl ltac:(done))
    as (H1 & H2 & _ & H4).
  split; [|split].
  - exact (H1 0%nat 4198400 attached_64k bitmap_64k wf_attached_64k eq_refl).
  - apply (H2 (environ_ratio "0") None unattached_64k "0"%string).
    + by vm_compute.
    + left. by vm_compute.
  - apply H4. lia.
Defined.

Lemma framing_failures_exit_witness :
  forkserver_round 198 (mk_fork_round 0 0 0 0 0 0) attached_64k =
    ([EvRead 198 4 0; EvPuts "[!] Parent dead!"], Exited 2) ∧
  forkserver_round 198 (mk_fork_round 4 (-1) 0 0 0 0) attached_64k =
    ([EvRead 198 4 4; EvFork (-1)], Exited 4) ∧
  afl_forkserver 198
    (mk_os_answers 4 1000 [one_turn; mk_fork_round 4 4322 4 (-1) 0 4; one_turn])
    attached_64k =
    (handshake_trace 198 (mk_os_answers 4 1000 []) ++
       complete_round_trace 198 one_turn ++
       [EvRead 198 4 4; EvFork 4322;
        EvPrintf fmt_parent_waits [];
        EvWrite 199 (BufChildPid 4322) 4 4; EvWaitpid 4322 (-1)],
     Exited 6).
Proof.
  destruct (framing_failures_exit 198 (mk_fork_round 0 0 0 0 0 0) attached_64k)
    as (H1 & _).
  destruct (framing_failures_exit 198 (mk_fork_round 4 (-1) 0 0 0 0)
              attached_64k) as (_ & H2 & _).
  destruct (framing_failures_exit 198 (mk_fork_round 4 4322 4 (-1) 0 4)
              (set_forksrv_pid (to_uint 1000) attached_64k))
    as (_ & _ & _ & H4 & _ & H6 & _).
  split; [|split].
  - apply H1. by vm_compute.
  - apply H2; by vm_compute.
  - apply (H6 (mk_os_answers 4 1000
                 [one_turn; mk_fork_round 4 4322 4 (-1) 0 4; one_turn])
              attached_64k bitmap_64k [one_turn] [one_turn]).
    + reflexivity.
    + reflexivity.
    + reflexivity.
    + reflexivity.
    + repeat constructor; by vm_compute.
    + apply H4; by vm_compute.
Defined.

Lemma handshake_refused_returns_witness :
  afl_forkserver 198 (mk_os_answers (-1) 1000 [one_turn]) attached_64k =
  ([EvPrintf fmt_write_to_afl [BufBytes tmp];
    EvWrite 199 (BufBytes tmp) 4 (-1)],
   Done attached_64k).
Proof.
  apply (handshake_refused_returns 198 (mk_os_answers (-1) 1000 [one_turn])
           attached_64k bitmap_64k eq_refl).
  by vm_compute.
Defined.

Lemma unattached_is_noop_witness :
  afl_maybe_log 65536 64 0%nat 4198400 unattached_64k = Some unattached_64k ∧
  afl_forkserver 198 (mk_os_answers 4 1000 [one_turn]) unattached_64k =
    ([], Done unattached_64k).
Proof.
  exact (unattached_is_noop 65536 198 64 0%nat 4198400
           (mk_os_answers 4 1000 [one_turn]) unattached_64k eq_refl).
Defined.

Lemma afl_wait_tsl_reads_until_short_witness :
  afl_wait_tsl 24 7 [(24, tsl_1); (24, tsl_2); (0, tsl_2); (24, tsl_1)] =
  ([EvRead 7 24 24; EvRead 7 24 24; EvRead 7 24 0; EvClose 7], Done ()).
Proof.
  apply (afl_wait_tsl_reads_until_short 24 7 [tsl_1; tsl_2] 0 tsl_2
           [(24, tsl_1)]).
  by vm_compute.
Defined.

Lemma relay_not_drained_before_wait :
  relay_drained_before_wait 198 false
    (trace (afl_forkserver 198 (mk_os_answers 4 1000 [one_turn]) attached_64k))
  = false.
Proof. by vm_compute. Qed.

Lemma received_message_not_compiled :
  compiles_every_message 24 7 [(24, tsl_1); (0, tsl_1)] = false.
Proof. by vm_compute. Qed.

Example one_turn_trace :
  afl_forkserver 198 (mk_os_answers 4 1000 [one_turn]) attached_64k =
  ([EvPrintf fmt_write_to_afl [BufBytes tmp];
    EvWrite 199 (BufBytes tmp) 4 4;
    EvGetpid 1000;
    EvPrintf fmt_forksrv_pid [BufInt 1000];
    EvRead 198 4 4;
    EvFork 4321;
    EvPrintf fmt_parent_waits [];
    EvWrite 199 (BufChildPid 4321) 4 4;
    EvWaitpid 4321 4321;
    EvWrite 199 (BufStatus 0) 4 4;
    EvSleep 5],
   Blocked).
Proof. reflexivity. Qed.

(** Set-up from the loader's state with the stock configuration: the segment
    is attached and the process is in the state the examples start from. *)
Example afl_setup_attaches :
  afl_setup 65536 "__AFL_SHM_ID" 64 atoi_decimal
    {[ "__AFL_SHM_ID"%string := "7"%string ]} (Some bitmap_64k)
    (initial_state 65536) =
  ([EvShmat 7; EvRcuDisableAtfork], Done attached_64k).
Proof. reflexivity. Qed.

(** With [AFL_INST_RATIO=0] set-up stores the rate of a ratio of 1 and marks
    the first byte of the bitmap. *)
Example afl_setup_ratio_0 :
  afl_setup 65536 "__AFL_SHM_ID" 64 atoi_decimal
    (<[ "__AFL_SHM_ID"%string := "7"%string ]> (environ_ratio "0"))
    (Some [0; 0; 0; 0]) (initial_state 65536) =
  ([EvShmat 7; EvRcuDisableAtfork],
   Done (set_area (Some [1; 0; 0; 0])
           (set_inst_rms 655 (initial_state 65536)))).
Proof. vm_compute. reflexivity. Qed.

(** The child's side of a turn: the descriptors are closed and control
    returns with [afl_fork_child] set. *)
Example child_returns :
  afl_forkserver 198 (mk_os_answers 4 1000 [mk_fork_round 4 0 0 0 0 0])
    attached_64k =
  ([EvPrintf fmt_write_to_afl [BufBytes tmp];
    EvWrite 199 (BufBytes tmp) 4 4;
    EvGetpid 1000;
    EvPrintf fmt_forksrv_pid [BufInt 1000];
    EvRead 198 4 4;
    EvFork 0;
    EvClose 198;
    EvClose 199],
   Done (set_fork_child 1 (set_forksrv_pid 1000 attached_64k))).
Proof. reflexivity. Qed.

(** ** The further properties at work *)

Lemma fits_16 : 1 <= 16 <= 2 ^ 64.
Proof. split; by vm_compute. Defined.


Lemma prev_loc_is_thread_local_witness :
  ∃ st', afl_maybe_log_all 16 64 [(0%nat, 4198400); (2%nat, 4198416)]
           attached_16 = Some st' ∧
         get_prev_loc 1%nat st' = get_prev_loc 1%nat attached_16.
Proof.
  destruct (afl_maybe_log_all 16 64 [(0%nat, 4198400); (2%nat, 4198416)]
              attached_16) as [st'|] eqn:E; [|by vm_compute in E].
  exists st'. split; [done|].
  apply (prev_loc_is_thread_local 16 64 1%nat
           [(0%nat, 4198400); (2%nat, 4198416)] attached_16 st'); [|exact E].
  repeat constructor; by vm_compute.
Defined.

Lemma logger_keeps_bytes_witness :
  ∃ st', afl_maybe_log_all 16 64 [(0%nat, 4198400); (2%nat, 4198416)]
           attached_16 = Some st' ∧
         bytes_in_range st' ∧
         (length <$> afl_area_ptr st') = (length <$> afl_area_ptr attached_16) ∧
         afl_inst_rms st' = afl_inst_rms attached_16 ∧
         afl_start_code st' = afl_start_code attached_16 ∧
         afl_end_code st' = afl_end_code attached_16 ∧
         afl_fork_child st' = afl_fork_child attached_16 ∧
         afl_forksrv_pid st' = afl_forksrv_pid attached_16.
Proof.
  destruct (afl_maybe_log_all 16 64 [(0%nat, 4198400); (2%nat, 4198416)]
              attached_16) as [st'|] eqn:E; [|by vm_compute in E].
  exists st'. split; [done|].
  apply (logger_keeps_bytes 16 64 [(0%nat, 4198400); (2%nat, 4198416)]
           attached_16 st'); [|exact E].
  intros bm [= <-]. repeat constructor; by vm_compute.
Defined.

Lemma forkserver_child_returns_witness :
  afl_forkserver 198 (mk_os_answers 4 1000 [one_turn; child_turn; one_turn])
    attached_16 =
  (handshake_trace 198 (mk_os_answers 4 1000 [one_turn; child_turn; one_turn])
     ++ concat (complete_round_trace 198 <$> [one_turn]) ++
     [EvRead 198 4 4; EvFork 0; EvClose 198; EvClose (198 + 1)],
   Done (set_fork_child 1 (set_forksrv_pid (to_uint 1000) attached_16))).
Proof.
  apply (forkserver_child_returns 198
           (mk_os_answers 4 1000 [one_turn; child_turn; one_turn])
           attached_16 (replicate 16 0) [one_turn] [one_turn] child_turn);
    try reflexivity.
  repeat constructor; by vm_compute.
Defined.

Lemma forkserver_blocks_iff_turns_complete_witness :
  (result (afl_forkserver 198 (mk_os_answers 4 1000 [one_turn; one_turn])
             attached_16) = Blocked ↔
   Forall completes [one_turn; one_turn]) ∧
  (Forall completes [one_turn; one_turn] →
   trace (afl_forkserver 198 (mk_os_answers 4 1000 [one_turn; one_turn])
            attached_16) =
   handshake_trace 198 (mk_os_answers 4 1000 [one_turn; one_turn]) ++
   concat (complete_round_trace 198 <$> [one_turn; one_turn])).
Proof.
  exact (forkserver_blocks_iff_turns_complete 198
           (mk_os_answers 4 1000 [one_turn; one_turn]) attached_16
           (replicate 16 0) eq_refl eq_refl).
Defined.

Lemma forkserver_returns_state_witness :
  (set_fork_child 1 (set_forksrv_pid (to_uint 1000) attached_16) = attached_16 ∨
   set_fork_child 1 (set_forksrv_pid (to_uint 1000) attached_16) =
   set_fork_child 1 (set_forksrv_pid (to_uint 1000) attached_16)) ∧
  afl_area_ptr (set_fork_child 1 (set_forksrv_pid (to_uint 1000) attached_16))
    = afl_area_ptr attached_16 ∧
  prev_loc (set_fork_child 1 (set_forksrv_pid (to_uint 1000) attached_16))
    = prev_loc attached_16 ∧
  afl_inst_rms (set_fork_child 1 (set_forksrv_pid (to_uint 1000) attached_16))
    = afl_inst_rms attached_16 ∧
  afl_start_code (set_fork_child 1 (set_forksrv_pid (to_uint 1000) attached_16))
    = afl_start_code attached_16 ∧
  afl_end_code (set_fork_child 1 (set_forksrv_pid (to_uint 1000) attached_16))
    = afl_end_code attached_16.
Proof.
  apply (forkserver_returns_state 198 (mk_os_answers 4 1000 [child_turn])
           attached_16).
  reflexivity.
Defined.

Lemma forkserver_parent_never_returns_witness :
  result (afl_forkserver 198
            (mk_os_answers 4 1000 [one_turn; mk_fork_round 4 4322 3 0 0 0])
            attached_16) = Blocked ∨
  ∃ k, result (afl_forkserver 198
                 (mk_os_answers 4 1000 [one_turn; mk_fork_round 4 4322 3 0 0 0])
                 attached_16) = Exited (exit_code k).
Proof.
  apply (forkserver_parent_never_returns 198
           (mk_os_answers 4 1000 [one_turn; mk_fork_round 4 4322 3 0 0 0])
           attached_16 (replicate 16 0) eq_refl eq_refl).
  repeat constructor; by vm_compute.
Defined.

Lemma requests_come_from_the_child_witness :
  result (AFL_QEMU_CPU_SNIPPET1 198 24 4198400 0 0 (-1)
            (set_fork_child 1 (set_forksrv_pid (to_uint 1000) attached_16)))
    = Done () ∧
  (EvFork 0 ∈ trace (afl_forkserver 198 (mk_os_answers 4 1000 [child_turn])
                       attached_16) →
   trace (AFL_QEMU_CPU_SNIPPET1 198 24 4198400 0 0 (-1)
            (set_fork_child 1 (set_forksrv_pid (to_uint 1000) attached_16))) =
   [EvWrite (TSL_FD 198) (BufTsl (mk_afl_tsl 4198400 0 0)) 24 (-1)]) ∧
  (EvFork 0 ∉ trace (afl_forkserver 198 (mk_os_answers 4 1000 [child_turn])
                       attached_16) →
   trace (AFL_QEMU_CPU_SNIPPET1 198 24 4198400 0 0 (-1)
            (set_fork_child 1 (set_forksrv_pid (to_uint 1000) attached_16)))
     = []).
Proof.
  apply (requests_come_from_the_child 198 24
           (mk_os_answers 4 1000 [child_turn]) attached_16); reflexivity.
Defined.

Lemma afl_setup_shmat_failure_exits_witness :
  afl_setup 16 "__AFL_SHM_ID" 64 atoi_decimal environ_shm None attached_16 =
  ([EvShmat (atoi_decimal "7")], Exited 1).
Proof.
  apply (afl_setup_shmat_failure_exits 16 "__AFL_SHM_ID" 64 atoi_decimal
           environ_shm attached_16 "7"%string).
  by vm_compute.
Defined.

Lemma afl_setup_without_shm_id_witness :
  ∃ st',
    afl_setup 16 "__AFL_SHM_ID" 64 atoi_decimal (environ_ratio "50") None
      (initial_state 16) = ([EvRcuDisableAtfork], Done st') ∧
    afl_area_ptr st' = afl_area_ptr (initial_state 16) ∧
    (afl_area_ptr (initial_state 16) = None →
     ∀ (os : os_answers) (tid : nat) (addr : Z),
       afl_forkserver 198 os st' = ([], Done st') ∧
       afl_maybe_log 16 64 tid addr st' = Some st').
Proof.
  apply (afl_setup_without_shm_id 16 198 "__AFL_SHM_ID" 64 atoi_decimal
           (environ_ratio "50") None (initial_state 16)).
  by vm_compute.
Defined.

Lemma afl_setup_marks_first_byte_witness :
  ∃ st',
    result (afl_setup 16 "__AFL_SHM_ID" 64 atoi_decimal
              (<[ "AFL_INST_RATIO"%string := "50"%string ]> environ_shm)
              (Some (0 :: replicate 15 0)) (initial_state 16)) = Done st' ∧
    afl_area_ptr st' =
      Some ((if (<[ "AFL_INST_RATIO"%string := "50"%string ]> environ_shm)
                  !! "AFL_INST_RATIO"%string is Some _ then 1 else 0)
              :: replicate 15 0).
Proof.
  apply (afl_setup_marks_first_byte 16 "__AFL_SHM_ID" 64 atoi_decimal
           (<[ "AFL_INST_RATIO"%string := "50"%string ]> environ_shm)
           (initial_state 16) "7"%string 0 (replicate 15 0)).
  by vm_compute.
Defined.

Lemma afl_setup_code_bounds_witness :
  if (<[ "AFL_INST_LIBS"%string := "1"%string ]> environ_shm)
       !! "AFL_INST_LIBS"%string is Some _
  then afl_start_code
         (set_code_bounds 0 (2 ^ 64 - 1)
            (set_area (Some (replicate 16 0)) (initial_state 16))) = 0 ∧
       afl_end_code
         (set_code_bounds 0 (2 ^ 64 - 1)
            (set_area (Some (replicate 16 0)) (initial_state 16))) = 2 ^ 64 - 1
  else afl_start_code
         (set_code_bounds 0 (2 ^ 64 - 1)
            (set_area (Some (replicate 16 0)) (initial_state 16)))
         = afl_start_code (initial_state 16) ∧
       afl_end_code
         (set_code_bounds 0 (2 ^ 64 - 1)
            (set_area (Some (replicate 16 0)) (initial_state 16)))
         = afl_end_code (initial_state 16).
Proof.
  apply (afl_setup_code_bounds 16 "__AFL_SHM_ID" 64 atoi_decimal
           (<[ "AFL_INST_LIBS"%string := "1"%string ]> environ_shm)
           (Some (replicate 16 0)) (initial_state 16)).
  - by vm_compute.
  - by vm_compute.
Defined.

Lemma scramble_reads_low_bits_witness :
  scramble 16 64 4198400 = scramble 16 64 (4198400 mod (16 * 16)) ∧
  scramble 16 64 (4198400 + 3 * (16 * 16)) = scramble 16 64 4198400.
Proof.
  exact (scramble_reads_low_bits 16 64 fits_16 4 ltac:(done) eq_refl
           4198400 3).
Defined.

Lemma afl_setup_then_log_in_bounds_witness :
  result (afl_setup 16 "__AFL_SHM_ID" 64 atoi_decimal environ_shm
            (Some (replicate 16 0)) (initial_state 16)) ≠ Fault ∧
  ∀ st', result (afl_setup 16 "__AFL_SHM_ID" 64 atoi_decimal environ_shm
                   (Some (replicate 16 0)) (initial_state 16)) = Done st' →
    ∀ calls, ∃ st'', afl_maybe_log_all 16 64 calls st' = Some st'' ∧
                     wf_state 16 st''.
Proof.
  apply (afl_setup_then_log_in_bounds 16 "__AFL_SHM_ID" 64 atoi_decimal
           fits_16 4 ltac:(done) eq_refl environ_shm (Some (replicate 16 0))
           (initial_state 16)).
  - by intros bm [= <-].
  - split; [done|apply map_Forall_empty].
Defined.

Lemma snippet2_stays_in_bounds_witness :
  result (AFL_QEMU_CPU_SNIPPET2 16 198 "__AFL_SHM_ID" 64 atoi_decimal
            0%nat 0 environ_shm (Some (replicate 16 0))
            (mk_os_answers 4 1000 [child_turn]) (initial_state 16)) ≠ Fault ∧
  ∀ st', result (AFL_QEMU_CPU_SNIPPET2 16 198 "__AFL_SHM_ID" 64 atoi_decimal
                   0%nat 0 environ_shm (Some (replicate 16 0))
                   (mk_os_answers 4 1000 [child_turn]) (initial_state 16))
           = Done st' → wf_state 16 st'.
Proof.
  apply (snippet2_stays_in_bounds 16 198 "__AFL_SHM_ID" 64 atoi_decimal
           fits_16 4 ltac:(done) eq_refl).
  - by intros bm [= <-].
  - split; [done|apply map_Forall_empty].
Defined.

Lemma afl_setup_rate_in_range_witness :
  0 <= afl_inst_rms (set_inst_rms 32768 (initial_state 65536)) <= 65536 ∧
  (100 <= 65536 →
   0 < afl_inst_rms (set_inst_rms 32768 (initial_state 65536))).
Proof.
  apply (afl_setup_rate_in_range 65536 "__AFL_SHM_ID" 64 atoi_decimal
           fits_64k ltac:(done) (environ_ratio "50") None).
  by vm_compute.
Defined.


Lemma edge_direction_is_recorded_witness :
  Z.lxor (scramble 16 64 32) (Z.shiftr (scramble 16 64 16) 1) ≠
  Z.lxor (scramble 16 64 16) (Z.shiftr (scramble 16 64 32) 1).
Proof.
  apply (edge_direction_is_recorded 16 64 fits_16 4 ltac:(done) eq_refl
           16 32).
  by vm_compute.
Defined.
